(** * Markov-chain rock-paper-scissors: the predictive model of [src/main.py]

    A shallow embedding of the module-level data ([States],
    [what_beats_what_dict], the learning-rate constants, [transition_matrix])
    and of the functions [computer_move], [decide_round_result] and
    [update_probabilities].

    - Python [int]s are [Z]; the entries of the matrix are IEEE-754 binary64
      values, embedded as Rocq's primitive [float] (the type behind
      [np.float64] and behind Python's [float] literals), so every
      subtraction, addition and comparison below rounds as the program does.
    - The module-level [transition_matrix] is threaded explicitly: the reader
      [computer_move] takes it, the writer [update_probabilities] takes it and
      returns the new one.
    - A raised exception is a value of [result]. *)

From Stdlib Require Import ZArith List Bool Lia Floats.
From Stdlib Require String Ascii DecimalString.
Import ListNotations.
Import String.StringSyntax.
Delimit Scope string_scope with string.

Set Warnings "-inexact-float".
Local Open Scope Z_scope.

(** ** Exceptions *)

Inductive exn : Type :=
| KeyError (k : Z)      (* [d[k]] on a dict without the key [k] *)
| ValueError            (* [States(v)] for a [v] that is no member's value *)
| IndexError.           (* an index outside the bounds of an array *)

Inductive result (A : Type) : Type :=
| Ok (a : A)
| Raise (e : exn).
Arguments Ok {A} a.
Arguments Raise {A} e.

Definition bind {A B : Type} (r : result A) (k : A -> result B) : result B :=
  match r with
  | Ok a => k a
  | Raise e => Raise e
  end.

Notation "x <- r ;; k" := (bind r (fun x => k))
  (at level 61, r at next level, right associativity).

(** ** The fragment of numpy and of [dict] the program uses *)

Module Np.

(** Position denoted by the index [i] in an axis of size [n]: negative
    indices count from the end, anything outside [-n, n) is an
    [IndexError]. *)
Definition index (n : nat) (i : Z) : result nat :=
  if (0 <=? i) && (i <? Z.of_nat n) then Ok (Z.to_nat i)
  else if (- Z.of_nat n <=? i) && (i <? 0) then Ok (Z.to_nat (i + Z.of_nat n))
  else Raise IndexError.

(** [a[i]] *)
Definition getitem {A : Type} (a : list A) (i : Z) : result A :=
  k <- index (length a) i ;;
  match nth_error a k with
  | Some x => Ok x
  | None => Raise IndexError
  end.

Fixpoint set_nth {A : Type} (a : list A) (k : nat) (x : A) : list A :=
  match a, k with
  | [], _ => []
  | _ :: a', O => x :: a'
  | y :: a', S k' => y :: set_nth a' k' x
  end.

(** [a[i] = x] *)
Definition setitem {A : Type} (a : list A) (i : Z) (x : A) : result (list A) :=
  k <- index (length a) i ;;
  Ok (set_nth a k x).

(** One step of the [minimum] reduction: a NaN accumulator stays, and a
    NaN operand is taken because the comparison with it is false. *)
Definition minimum (acc x : float) : float :=
  if (acc <? x)%float || is_nan acc then acc else x.

(** [np.min(a)] of a one-dimensional array: a left-to-right reduction
    starting from the first element; an empty array has no minimum. *)
Definition min (a : list float) : result float :=
  match a with
  | [] => Raise ValueError
  | x :: a' => Ok (fold_left minimum a' x)
  end.

(** The scan of [argmax]: [mp] is the running maximum, found at [best];
    [i] is the position of the head of [a]. A NaN is maximal and stops
    the scan; otherwise only a strictly greater value (or a NaN) displaces
    the running maximum, so the first occurrence of the maximum wins. *)
Fixpoint argmax_from (mp : float) (best i : nat) (a : list float) : nat :=
  match a with
  | [] => best
  | x :: a' =>
      if is_nan mp then best
      else if negb (x <=? mp)%float then argmax_from x i (S i) a'
      else argmax_from mp best (S i) a'
  end.

(** [a.argmax()] *)
Definition argmax (a : list float) : result nat :=
  match a with
  | [] => Raise ValueError
  | x :: a' => Ok (argmax_from x 0 1 a')
  end.

End Np.

(** A [dict[int, int]] literal, in the order it is written. *)
Definition dict : Type := list (Z * Z).

(** [d[k]] *)
Fixpoint dict_getitem (d : dict) (k : Z) : result Z :=
  match d with
  | [] => Raise (KeyError k)
  | (k', v) :: d' => if k =? k' then Ok v else dict_getitem d' k
  end.

(** ** Module-level data *)

(** [class States(Enum)] *)
Inductive States : Type :=
| EM  (* Empty move (for the sake of first move) *)
| VR | VP | VS
| LR | LP | LS
| TR | TP | TS.

(** [s.value] *)
Definition value (s : States) : Z :=
  match s with
  | EM => -1
  | VR => 0 | VP => 1 | VS => 2
  | LR => 3 | LP => 4 | LS => 5
  | TR => 6 | TP => 7 | TS => 8
  end.

Definition all_States : list States := [EM; VR; VP; VS; LR; LP; LS; TR; TP; TS].

(** [States(v)]: the member whose value is [v], a [ValueError] if none. *)
Definition States_of_value (v : Z) : result States :=
  match find (fun s => value s =? v) all_States with
  | Some s => Ok s
  | None => Raise ValueError
  end.

Definition States_eqb (s t : States) : bool := value s =? value t.

Definition what_beats_what_dict : dict := [(0, 2); (1, 0); (2, 1)].
Definition decrease_value : float := 0.01.
Definition increase_value : float := 0.1.
Definition upper_limit : float := (1 - increase_value + decrease_value)%float.
Definition bottom_limit : float := (0 + decrease_value)%float.

Definition matrix : Type := list (list float).

(** The initial value of the global [transition_matrix]. *)
Definition transition_matrix : matrix :=
  [[0.11; 0.11; 0.11; 0.11; 0.11; 0.11; 0.11; 0.11; 0.11];
   [0.11; 0.11; 0.11; 0.11; 0.11; 0.11; 0.11; 0.11; 0.11];
   [0.11; 0.11; 0.11; 0.11; 0.11; 0.11; 0.11; 0.11; 0.11];
   [0.11; 0.11; 0.11; 0.11; 0.11; 0.11; 0.11; 0.11; 0.11];
   [0.11; 0.11; 0.11; 0.11; 0.11; 0.11; 0.11; 0.11; 0.11];
   [0.11; 0.11; 0.11; 0.11; 0.11; 0.11; 0.11; 0.11; 0.11];
   [0.11; 0.11; 0.11; 0.11; 0.11; 0.11; 0.11; 0.11; 0.11];
   [0.11; 0.11; 0.11; 0.11; 0.11; 0.11; 0.11; 0.11; 0.11];
   [0.11; 0.11; 0.11; 0.11; 0.11; 0.11; 0.11; 0.11; 0.11]]%float.

(** ** [computer_move] *)

(** [counter_plays], local to [computer_move]. *)
Definition counter_plays : dict := [(2, 0); (1, 2); (0, 1)].

(** The three sums of [decision_vector]. *)
Definition decision_vector (vector : list float) : result (list float) :=
  v0 <- Np.getitem vector 0 ;; v3 <- Np.getitem vector 3 ;; v6 <- Np.getitem vector 6 ;;
  v1 <- Np.getitem vector 1 ;; v4 <- Np.getitem vector 4 ;; v7 <- Np.getitem vector 7 ;;
  v2 <- Np.getitem vector 2 ;; v5 <- Np.getitem vector 5 ;; v8 <- Np.getitem vector 8 ;;
  Ok [v0 + v3 + v6; v1 + v4 + v7; v2 + v5 + v8]%float.

(** [randint] is the value that [random.randint(0, 2)] draws in this call;
    [tm] is the current value of the global [transition_matrix], which the
    function only reads. *)
Definition computer_move (randint : Z) (tm : matrix) (last_move_outcome : States)
  : result Z :=
  if States_eqb last_move_outcome EM then Ok randint
  else
    vector <- Np.getitem tm (value last_move_outcome) ;;
    dv <- decision_vector vector ;;
    p <- Np.argmax dv ;;
    dict_getitem counter_plays (Z.of_nat p).

(** ** [decide_round_result] *)

Definition decide_round_result (player_choice computer_choice : Z) : result Z :=
  if player_choice =? computer_choice then Ok 0
  else
    w <- dict_getitem what_beats_what_dict player_choice ;;
    if w =? computer_choice then Ok 1 else Ok (-1).

(** ** [update_probabilities] *)

(** The condition of the inner [if]; [and] evaluates its right operand only
    when the left one holds. *)
Definition guard (vector : list float) (current_state : States) : result bool :=
  c <- Np.getitem vector (value current_state) ;;
  if (c <=? upper_limit)%float then
    m <- Np.min vector ;;
    Ok (bottom_limit <=? m)%float
  else Ok false.

(** The two assignments under the guard; [vector] is a view of the row,
    so they change the row of the matrix in place. *)
Definition bump (vector : list float) (current_state : States) : result (list float) :=
  let vector := map (fun x => x - decrease_value)%float vector in
  c <- Np.getitem vector (value current_state) ;;
  Np.setitem vector (value current_state) (c + increase_value)%float.

(** The second half of [update_probabilities]: the update of the row of
    [last_move_outcome] by the observed [current_state]. *)
Definition reinforce (tm : matrix) (last_move_outcome current_state : States)
  : result matrix :=
  if negb (States_eqb last_move_outcome EM) then
    vector <- Np.getitem tm (value last_move_outcome) ;;
    g <- guard vector current_state ;;
    if g then
      vector' <- bump vector current_state ;;
      Np.setitem tm (value last_move_outcome) vector'
    else Ok tm
  else Ok tm.

(** The first half: the state of the round that was just played. *)
Definition current_state_of (player_choice round_result : Z) : result States :=
  if round_result =? 1 then States_of_value player_choice
  else if round_result =? -1 then States_of_value (player_choice + 3)
  else States_of_value (player_choice + 6).

Definition update_probabilities (player_choice round_result : Z)
    (last_move_outcome : States) (tm : matrix) : result (States * matrix) :=
  current_state <- current_state_of player_choice round_result ;;
  tm' <- reinforce tm last_move_outcome current_state ;;
  Ok (current_state, tm').

(** ** Runs of the updater *)

(** A sequence of calls of [reinforce], each given as the pair of the
    previous and of the observed state; an exception ends the run. *)
Fixpoint run (calls : list (States * States)) (tm : matrix) : result matrix :=
  match calls with
  | [] => Ok tm
  | (last_move_outcome, current_state) :: calls' =>
      tm' <- reinforce tm last_move_outcome current_state ;;
      run calls' tm'
  end.

(** The matrices the program can hold. *)
Definition reachable (tm : matrix) : Prop :=
  exists calls, run calls transition_matrix = Ok tm.

(** [tm[row.value][column.value]] *)
Definition cell (tm : matrix) (row column : States) : result float :=
  vector <- Np.getitem tm (value row) ;;
  Np.getitem vector (value column).

(** Nine rows of nine cells. *)
Definition shape (tm : matrix) : Prop :=
  length tm = 9%nat /\ Forall (fun vector => length vector = 9%nat) tm.

(** The closed interval [0, 1] of binary64. *)
Definition in_unit (x : float) : Prop :=
  (0 <=? x)%float = true /\ (x <=? 1)%float = true.

(** [upper_limit - decrease_value], the largest value the first assignment
    can leave in the observed cell. *)
Definition drained_limit : float := (upper_limit - decrease_value)%float.

(** Eleven rounds after a win with rock, none of them a tie with scissors. *)
Definition eleven_rounds : list (States * States) :=
  [(VR, VR); (VR, VP); (VR, VS); (VR, LR); (VR, LP); (VR, LS); (VR, TR); (VR, TP);
   (VR, VR); (VR, VP); (VR, VS)].

(** ** The terminal and the game loop *)

(** What a function that talks to the terminal ends with: a value, an
    exception of the model, the [EOFError] of [input] on an exhausted
    standard input, or no answer within the iterations allowed. *)
Inductive outcome (A : Type) : Type :=
| Done (a : A)
| Fault (e : exn)
| EOFError
| OutOfFuel.
Arguments Done {A} a.
Arguments Fault {A} e.
Arguments EOFError {A}.
Arguments OutOfFuel {A}.

Definition and_then {A B : Type} (r : outcome A) (k : A -> outcome B) : outcome B :=
  match r with
  | Done a => k a
  | Fault e => Fault e
  | EOFError => EOFError
  | OutOfFuel => OutOfFuel
  end.

Definition lift {A : Type} (r : result A) : outcome A :=
  match r with
  | Ok a => Done a
  | Raise e => Fault e
  end.

(** The lines still to be read from standard input, the chunks written to
    standard output so far, and the number of calls of [random.randint]. *)
Record world : Type := {
  stdin : list String.string;
  stdout : list String.string;
  draws : nat
}.

Definition newline : String.string := String.String (Ascii.ascii_of_nat 10) String.EmptyString.

(** [print(s)] *)
Definition print (s : String.string) (w : world) : world :=
  {| stdin := stdin w;
     stdout := stdout w ++ [String.append s newline];
     draws := draws w |}.

(** [input(prompt)]: the prompt is written, one line is read. *)
Definition input (prompt : String.string) (w : world) : outcome (String.string * world) :=
  match stdin w with
  | [] => EOFError
  | line :: lines =>
      Done (line, {| stdin := lines; stdout := stdout w ++ [prompt]; draws := draws w |})
  end.

(** [str(n)] of an [int], as an f-string formats it. *)
Definition str (n : Z) : String.string := DecimalString.NilZero.string_of_int (Z.to_int n).

(** A [dict[int, str]] literal and [d[k]]. *)
Definition str_dict : Type := list (Z * String.string).

Fixpoint str_dict_getitem (d : str_dict) (k : Z) : result String.string :=
  match d with
  | [] => Raise (KeyError k)
  | (k', v) :: d' => if k =? k' then Ok v else str_dict_getitem d' k
  end.

Definition prompt : String.string := "Choose your move: 1-rock 2-paper 3-scissors: "%string.

(** The [while True] of [player_move], by recursion on the lines that
    standard input still holds; [out] and [k] are the other two fields of the
    world. *)
Fixpoint player_move_lines (lines out : list String.string) (k : nat)
  : outcome (Z * world) :=
  match lines with
  | [] => EOFError
  | move :: lines' =>
      let w := {| stdin := lines'; stdout := out ++ [prompt]; draws := k |} in
      if String.eqb move "1"%string then Done (0, w)
      else if String.eqb move "2"%string then Done (1, w)
      else if String.eqb move "3"%string then Done (2, w)
      else
        player_move_lines lines'
          (out ++ [prompt] ++ [String.append "Wrong choice!"%string newline]) k
  end.

Definition player_move (w : world) : outcome (Z * world) :=
  player_move_lines (stdin w) (stdout w) (draws w).

(** The locals of [game_handler] that live across the rounds, with the
    global [transition_matrix]. *)
Module Game.
Record state : Type := {
  last_move_outcome : States;
  round_counter : Z;
  score : Z;
  tm : matrix
}.
End Game.

Definition moves_dict : str_dict := [(0, "rock"%string); (1, "paper"%string); (2, "scissors"%string)].
Definition outcomes_dict : str_dict :=
  [(0, "It's a tie!"%string); (1, "You won!"%string); (-1, "You lost!"%string)].

(** The condition of the [while] of [game_handler]. *)
Definition continues (g : Game.state) : bool :=
  (Game.round_counter g <? 30) && ((Game.score g <? 10) && (-10 <? Game.score g)).

(** [computer_move] as [game_handler] calls it: [randint k] is what the
    [k]-th call of [random.randint(0, 2)] returns, and a call is made only
    on the branch of [EM]. *)
Definition computer_move_call (randint : nat -> Z) (g : Game.state) (w : world)
  : outcome (Z * world) :=
  and_then
    (lift (computer_move (randint (draws w)) (Game.tm g) (Game.last_move_outcome g)))
    (fun computer_choice =>
       Done (computer_choice,
             if States_eqb (Game.last_move_outcome g) EM
             then {| stdin := stdin w; stdout := stdout w; draws := S (draws w) |}
             else w)).

(** The body of the [while]. *)
Definition play_round (randint : nat -> Z) (g : Game.state) (w : world)
  : outcome (Game.state * world) :=
  let w := print (String.append "-----Round: "%string
                   (String.append (str (Game.round_counter g))
                      (String.append " Score: "%string
                         (String.append (str (Game.score g)) "-----"%string)))) w in
  and_then (player_move w) (fun '(player_choice, w) =>
  and_then (computer_move_call randint g w) (fun '(computer_choice, w) =>
  and_then (lift (str_dict_getitem moves_dict player_choice)) (fun you =>
  and_then (lift (str_dict_getitem moves_dict computer_choice)) (fun computer =>
  let w := print (String.append "You: "%string
                   (String.append you (String.append " vs Computer: "%string computer))) w in
  and_then (lift (decide_round_result player_choice computer_choice)) (fun round_result =>
  and_then (lift (str_dict_getitem outcomes_dict round_result)) (fun said =>
  let w := print said w in
  and_then (lift (update_probabilities player_choice round_result
                    (Game.last_move_outcome g) (Game.tm g)))
    (fun '(last_move_outcome, tm) =>
  Done ({| Game.last_move_outcome := last_move_outcome;
           Game.round_counter := Game.round_counter g + 1;
           Game.score := Game.score g + round_result;
           Game.tm := tm |}, w)))))))).

(** The [while] itself, cut after [fuel] iterations. *)
Fixpoint rounds (fuel : nat) (randint : nat -> Z) (g : Game.state) (w : world)
  : outcome (Game.state * world) :=
  if continues g then
    match fuel with
    | O => OutOfFuel
    | S fuel' =>
        and_then (play_round randint g w) (fun '(g', w') => rounds fuel' randint g' w')
    end
  else Done (g, w).

(** The three lines after the loop. *)
Definition verdict (score : Z) : String.string :=
  if score =? 0 then "It's a tie!"%string
  else if 0 <? score then "You won! Congratulations"%string
  else "You lost! Better luck next time!"%string.

(** [game_handler], started on the matrix [tm]; thirty iterations are
    allowed, one for each value [round_counter] can take in the loop. *)
Definition game_handler (randint : nat -> Z) (tm : matrix) (w : world)
  : outcome (Game.state * world) :=
  let g := {| Game.last_move_outcome := EM;
              Game.round_counter := 0;
              Game.score := 0;
              Game.tm := tm |} in
  and_then (rounds 30 randint g w) (fun '(g, w) =>
  let w := print "-----GAME OVER!-----"%string w in
  Done (g, print (verdict (Game.score g)) w)).

(** The lines [player_move] accepts. *)
Definition accepted (line : String.string) : bool :=
  String.eqb line "1"%string || String.eqb line "2"%string || String.eqb line "3"%string.

(** The number of lines [player_move] accepts among [lines]. *)
Definition accepted_count (lines : list String.string) : Z :=
  Z.of_nat (length (filter accepted lines)).

(** The move [player_move] returns for an accepted line. *)
Definition move_of_line (line : String.string) : Z :=
  if String.eqb line "1"%string then 0
  else if String.eqb line "2"%string then 1 else 2.

(** Calls of [reinforce] as a game makes them, from the state [s] to the
    state [s']: the first has the previous state [s], each has a concrete
    observed state, which is the previous state of the next, and [s'] is
    the last observed state ([s] itself when there is no call). *)
Fixpoint chained (s : States) (calls : list (States * States)) (s' : States) : Prop :=
  match calls with
  | [] => s' = s
  | (p, o) :: calls' => p = s /\ o <> EM /\ chained o calls' s'
  end.

(** What [player_move] prints after a line it does not accept. *)
Definition wrong : String.string :=
  String.append "Wrong choice!"%string newline.

(** ** Reading binary64 values as integers *)

Module Binary64.

(** Above every finite value, in units of 2^-1074. *)
Definition big : Z := 2 ^ 2100.

(** The place of a value in the order of binary64, NaN having none: a
    finite value is counted in units of 2^-1074, the least positive
    binary64 value. *)
Definition SFord (x : spec_float) : option Z :=
  match x with
  | S754_nan => None
  | S754_zero _ => Some 0
  | S754_infinity s => Some (cond_Zopp s big)
  | S754_finite s m e => Some (cond_Zopp s (Zpos m * 2 ^ (e + 1074)))
  end.

Definition ford (x : float) : option Z := SFord (Prim2SF x).

(** The record after [k] shifts of the integer [M]. *)
Definition shr_inv (M k : Z) (mrs : shr_record) : Prop :=
  0 <= k /\ shr_m mrs = M / 2 ^ k /\
  ((shr_r mrs = false /\ shr_s mrs = false) <-> M mod 2 ^ k = 0).

End Binary64.

(** * Binary64 facts

    The comparisons of primitive floats are read through [ford], which sends
    every float but NaN to an integer, in units of 2^-1074, in an
    order-preserving way; the additions and subtractions through the
    rounding function of the standard library's specification. *)

Module IEEE.
Import Binary64.

Lemma digits2_pos_bounds (m : positive) :
  2 ^ (Zpos (digits2_pos m) - 1) <= Zpos m < 2 ^ Zpos (digits2_pos m).
Proof.
  induction m as [m IH | m IH | ]; cbn [digits2_pos].
  - rewrite Pos2Z.inj_succ, (Pos2Z.inj_xI m).
    replace (Z.succ (Zpos (digits2_pos m)) - 1)
      with (Z.succ (Zpos (digits2_pos m) - 1)) by lia.
    rewrite 2!Z.pow_succ_r by lia. lia.
  - rewrite Pos2Z.inj_succ, (Pos2Z.inj_xO m).
    replace (Z.succ (Zpos (digits2_pos m)) - 1)
      with (Z.succ (Zpos (digits2_pos m) - 1)) by lia.
    rewrite 2!Z.pow_succ_r by lia. lia.
  - cbn. lia.
Qed.

Lemma bounded_inv (m : positive) (e : Z) :
  bounded prec emax m e = true ->
  -1074 <= e <= 971 /\ Zpos (digits2_pos m) <= 53 /\
  (e = -1074 \/ Zpos (digits2_pos m) = 53) /\
  fexp prec emax (Zpos (digits2_pos m) + e) = e.
Proof.
  unfold bounded, canonical_mantissa, fexp, SpecFloat.emin, prec, emax.
  intros H. apply andb_true_iff in H. destruct H as [H1 H2].
  apply Z.eqb_eq in H1. apply Z.leb_le in H2. lia.
Qed.

Lemma bounded_mantissa (m : positive) (e : Z) :
  bounded prec emax m e = true ->
  Zpos m < 2 ^ 53 /\ (e = -1074 \/ 2 ^ 52 <= Zpos m).
Proof.
  intros H. apply bounded_inv in H. destruct H as (_ & Hd & Hn & _).
  pose proof (digits2_pos_bounds m) as [Hl Hu].
  split.
  - eapply Z.lt_le_trans; [exact Hu|]. apply Z.pow_le_mono_r; lia.
  - destruct Hn as [Hn|Hn]; [now left|right]. rewrite Hn in Hl. exact Hl.
Qed.

Lemma pow2_split (a b : Z) : 0 <= a -> a <= b -> 2 ^ b = 2 ^ (b - a) * 2 ^ a.
Proof. intros. rewrite <- Z.pow_add_r by lia. f_equal. lia. Qed.

Lemma pow2_pos (a : Z) : 0 <= a -> 0 < 2 ^ a.
Proof. intros. apply Z.pow_pos_nonneg; lia. Qed.

(** The order of two canonical positive floats is the order of their values. *)
Lemma finite_compare (m1 m2 : positive) (e1 e2 : Z) :
  bounded prec emax m1 e1 = true -> bounded prec emax m2 e2 = true ->
  match e1 ?= e2 with
  | Lt => Lt
  | Gt => Gt
  | Eq => Pos.compare_cont Eq m1 m2
  end = (Zpos m1 * 2 ^ (e1 + 1074) ?= Zpos m2 * 2 ^ (e2 + 1074)).
Proof.
  intros B1 B2.
  pose proof (bounded_inv _ _ B1) as ((L1 & _) & _).
  pose proof (bounded_inv _ _ B2) as ((L2 & _) & _).
  pose proof (bounded_mantissa _ _ B1) as [U1 N1].
  pose proof (bounded_mantissa _ _ B2) as [U2 N2].
  destruct (Z.compare_spec e1 e2) as [E|E|E].
  - subst e2. change (Pos.compare_cont Eq m1 m2) with (Zpos m1 ?= Zpos m2).
    pose proof (pow2_pos (e1 + 1074) ltac:(lia)) as P.
    destruct (Z.compare_spec (Zpos m1) (Zpos m2)); symmetry;
      [apply Z.compare_eq_iff|apply Z.compare_lt_iff|apply Z.compare_gt_iff]; nia.
  - symmetry. apply Z.compare_lt_iff.
    rewrite (pow2_split (e1 + 1074) (e2 + 1074)) by lia.
    pose proof (pow2_pos (e1 + 1074) ltac:(lia)) as P.
    assert (2 ^ 1 <= 2 ^ (e2 + 1074 - (e1 + 1074))) as Q
        by (apply Z.pow_le_mono_r; lia).
    destruct N2 as [N2|N2]; [lia|]. change (2 ^ 1) with 2 in Q.
    rewrite Z.mul_assoc. apply Z.mul_lt_mono_pos_r; [exact P|].
    apply Z.lt_le_trans with (1 := U1). change (2 ^ 53) with (2 ^ 52 * 2).
    apply Z.mul_le_mono_nonneg; lia.
  - symmetry. apply Z.compare_gt_iff.
    rewrite (pow2_split (e2 + 1074) (e1 + 1074)) by lia.
    pose proof (pow2_pos (e2 + 1074) ltac:(lia)) as P.
    assert (2 ^ 1 <= 2 ^ (e1 + 1074 - (e2 + 1074))) as Q
        by (apply Z.pow_le_mono_r; lia).
    destruct N1 as [N1|N1]; [lia|]. change (2 ^ 1) with 2 in Q.
    rewrite Z.mul_assoc. apply Z.mul_lt_mono_pos_r; [exact P|].
    apply Z.lt_le_trans with (1 := U2). change (2 ^ 53) with (2 ^ 52 * 2).
    apply Z.mul_le_mono_nonneg; lia.
Qed.


Lemma big_pos : 0 < big.
Proof. reflexivity. Qed.

Lemma bounded_value (m : positive) (e : Z) :
  bounded prec emax m e = true -> 0 < Zpos m * 2 ^ (e + 1074) < big.
Proof.
  intros B. pose proof (bounded_inv _ _ B) as ((L & U) & _).
  pose proof (bounded_mantissa _ _ B) as [Um _].
  pose proof (pow2_pos (e + 1074) ltac:(lia)) as P.
  split; [apply Z.mul_pos_pos; lia|].
  apply Z.lt_le_trans with (2 ^ 53 * 2 ^ (e + 1074)).
  - apply Z.mul_lt_mono_pos_r; assumption.
  - unfold big. rewrite <- Z.pow_add_r by lia. apply Z.pow_le_mono_r; lia.
Qed.

Ltac by_compare :=
  f_equal; symmetry;
  first [ apply Z.compare_eq_iff; lia
        | apply Z.compare_lt_iff; lia
        | apply Z.compare_gt_iff; lia ].

(** On valid operands, [SFcompare] is the comparison of [SFord]. *)
Lemma SFcompare_ord (x y : spec_float) :
  valid_binary x = true -> valid_binary y = true ->
  SFcompare x y =
  match SFord x, SFord y with
  | Some a, Some b => Some (a ?= b)
  | _, _ => None
  end.
Proof.
  pose proof big_pos as Hbig.
  destruct x as [sx|sx| |sx mx ex], y as [sy|sy| |sy my ey];
    cbn [valid_binary SFcompare SFord cond_Zopp]; intros Vx Vy;
    try reflexivity;
    try (pose proof (bounded_value _ _ Vx) as Bx);
    try (pose proof (bounded_value _ _ Vy) as By);
    try (destruct sx; cbn [cond_Zopp]); try (destruct sy; cbn [cond_Zopp]);
    try by_compare.
  - rewrite Z.compare_opp.
    rewrite (Z.compare_antisym (Zpos mx * 2 ^ (ex + 1074))).
    rewrite <- (finite_compare _ _ _ _ Vx Vy).
    f_equal. destruct (ex ?= ey); reflexivity.
  - rewrite <- (finite_compare _ _ _ _ Vx Vy). reflexivity.
Qed.

Lemma leb_ford (x y : float) :
  (x <=? y)%float =
  match ford x, ford y with Some a, Some b => a <=? b | _, _ => false end.
Proof.
  rewrite leb_spec. unfold SFleb, ford.
  rewrite SFcompare_ord by apply Prim2SF_valid.
  destruct (SFord (Prim2SF x)), (SFord (Prim2SF y)); reflexivity.
Qed.

Lemma ltb_ford (x y : float) :
  (x <? y)%float =
  match ford x, ford y with Some a, Some b => a <? b | _, _ => false end.
Proof.
  rewrite ltb_spec. unfold SFltb, ford.
  rewrite SFcompare_ord by apply Prim2SF_valid.
  destruct (SFord (Prim2SF x)), (SFord (Prim2SF y)); reflexivity.
Qed.

Lemma eqb_ford (x y : float) :
  (x =? y)%float =
  match ford x, ford y with Some a, Some b => a =? b | _, _ => false end.
Proof.
  rewrite eqb_spec. unfold SFeqb, ford.
  rewrite SFcompare_ord by apply Prim2SF_valid.
  destruct (SFord (Prim2SF x)), (SFord (Prim2SF y)); try reflexivity.
  destruct (Z.eqb_spec z z0) as [->|N].
  - now rewrite Z.compare_refl.
  - destruct (Z.compare_spec z z0); congruence.
Qed.

Lemma is_nan_ford (x : float) :
  is_nan x = match ford x with Some _ => false | None => true end.
Proof.
  unfold is_nan. rewrite eqb_ford. destruct (ford x); [|reflexivity].
  now rewrite Z.eqb_refl.
Qed.


(** *** Rounding: the result of an addition never passes a representable
    bound that the exact sum respects. *)

Lemma shr_1_spec (mrs : shr_record) :
  0 <= shr_m mrs ->
  shr_m (shr_1 mrs) = shr_m mrs / 2 /\
  shr_r (shr_1 mrs) = Z.odd (shr_m mrs) /\
  shr_s (shr_1 mrs) = shr_r mrs || shr_s mrs.
Proof.
  destruct mrs as [m r s]. cbn [shr_m shr_r shr_s]. intros Hm.
  rewrite <- Z.div2_div.
  destruct m as [|[p|p|]|p]; cbn; try lia; repeat split; reflexivity.
Qed.

Lemma shr_inv_step (M k : Z) (mrs : shr_record) :
  0 <= M -> shr_inv M k mrs -> shr_inv M (k + 1) (shr_1 mrs).
Proof.
  intros HM (Hk & Hm & Hrs).
  pose proof (pow2_pos k Hk) as P.
  assert (0 <= shr_m mrs) as Hpos by (rewrite Hm; apply Z.div_pos; lia).
  destruct (shr_1_spec mrs Hpos) as (Hm' & Hr' & Hs').
  unfold shr_inv. rewrite Z.pow_add_r, Z.pow_1_r by lia.
  split; [lia|]. split.
  - rewrite Hm', Hm. apply Z.div_div; lia.
  - rewrite Hr', Hs', Hm. rewrite Z.rem_mul_r by lia.
    pose proof (Z.mod_pos_bound M (2 ^ k) P) as Hb.
    pose proof (Zmod_odd (M / 2 ^ k)) as Ho.
    destruct (Z.odd (M / 2 ^ k)); rewrite Ho.
    + split; [intros [? _]; discriminate | nia].
    + rewrite Z.mul_0_r, Z.add_0_r. rewrite <- Hrs.
      destruct (shr_r mrs), (shr_s mrs); cbn; intuition congruence.
Qed.

Lemma iter_pos_shr_inv (M : Z) (n : positive) :
  0 <= M ->
  forall k mrs, shr_inv M k mrs -> shr_inv M (k + Zpos n) (iter_pos shr_1 n mrs).
Proof.
  intros HM. induction n as [n IH | n IH | ]; intros k mrs H; cbn [iter_pos].
  - replace (k + Zpos n~1) with (k + 1 + Zpos n + Zpos n) by lia.
    apply IH, IH, shr_inv_step; assumption.
  - replace (k + Zpos n~0) with (k + Zpos n + Zpos n) by lia.
    apply IH, IH; assumption.
  - apply shr_inv_step; assumption.
Qed.

Lemma shr_spec (M e n : Z) :
  0 <= M ->
  exists mrs,
    shr (Build_shr_record M false false) e n = (mrs, e + Z.max 0 n) /\
    shr_m mrs = M / 2 ^ Z.max 0 n /\
    (M mod 2 ^ Z.max 0 n = 0 -> loc_of_shr_record mrs = loc_Exact).
Proof.
  intros HM.
  assert (shr_inv M 0 (Build_shr_record M false false)) as H0.
  { split; [lia|]. cbn [shr_m shr_r shr_s]. rewrite Z.pow_0_r, Z.div_1_r, Z.mod_1_r.
    tauto. }
  destruct n as [|p|p]; cbn [shr].
  - exists (Build_shr_record M false false). rewrite Z.add_0_r.
    cbn [shr_m Z.max Z.compare loc_of_shr_record].
    rewrite Z.pow_0_r, Z.div_1_r. auto.
  - exists (iter_pos shr_1 p (Build_shr_record M false false)).
    replace (Z.max 0 (Zpos p)) with (Zpos p) by lia.
    destruct (iter_pos_shr_inv M p HM 0 _ H0) as (_ & Hm & Hrs).
    rewrite Z.add_0_l in *. repeat split; [exact Hm|].
    intros Hx. apply Hrs in Hx. destruct Hx as [Hr Hs].
    destruct (iter_pos shr_1 p _) as [m r s]. cbn in Hr, Hs. subst. reflexivity.
  - exists (Build_shr_record M false false).
    replace (Z.max 0 (Zneg p)) with 0 by lia. rewrite Z.add_0_r.
    cbn [shr_m loc_of_shr_record]. rewrite Z.pow_0_r, Z.div_1_r. auto.
Qed.

Lemma round_nearest_even_bounds (m : Z) (l : location) :
  m <= round_nearest_even m l <= m + 1 /\
  (l = loc_Exact -> round_nearest_even m l = m).
Proof.
  destruct l as [|[| |]]; cbn [round_nearest_even];
    try destruct (Z.even m); split; (lia || reflexivity || discriminate || auto).
Qed.

Lemma fexp_mono (a b : Z) : a <= b -> fexp prec emax a <= fexp prec emax b.
Proof. unfold fexp, SpecFloat.emin, prec, emax. lia. Qed.

Lemma fexp_ge_emin (a : Z) : -1074 <= fexp prec emax a.
Proof. unfold fexp, SpecFloat.emin, prec, emax. lia. Qed.

(** A value below a canonical float has no larger canonical exponent. *)
Lemma fexp_le_bound (m mB : positive) (e eB : Z) :
  -1074 <= e -> bounded prec emax mB eB = true ->
  Zpos m * 2 ^ (e + 1074) <= Zpos mB * 2 ^ (eB + 1074) ->
  fexp prec emax (Zpos (digits2_pos m) + e) <= eB.
Proof.
  intros He B Hle.
  destruct (bounded_inv _ _ B) as ((LB & _) & _ & _ & Hc).
  rewrite <- Hc. apply fexp_mono.
  destruct (digits2_pos_bounds m) as [Hl _].
  destruct (digits2_pos_bounds mB) as [_ Hu].
  pose proof (pow2_pos (e + 1074) ltac:(lia)) as P.
  pose proof (pow2_pos (eB + 1074) ltac:(lia)) as PB.
  assert (2 ^ (Zpos (digits2_pos m) - 1 + (e + 1074))
          < 2 ^ (Zpos (digits2_pos mB) + (eB + 1074))) as H.
  { rewrite (Z.pow_add_r 2 (Zpos (digits2_pos m) - 1)) by (clear - He; lia).
    rewrite (Z.pow_add_r 2 (Zpos (digits2_pos mB))) by (clear - LB; lia).
    apply Z.le_lt_trans with (Zpos m * 2 ^ (e + 1074)).
    - apply Z.mul_le_mono_nonneg_r; lia.
    - apply Z.le_lt_trans with (1 := Hle). apply Z.mul_lt_mono_pos_r; assumption. }
  apply Z.pow_lt_mono_r_iff in H; lia.
Qed.


Lemma binary_round_aux_ub (mz mB : positive) (ez eB : Z) :
  -1074 <= ez ->
  ez <= fexp prec emax (Zpos (digits2_pos mz) + ez) ->
  bounded prec emax mB eB = true ->
  Zpos mz * 2 ^ (ez + 1074) <= Zpos mB * 2 ^ (eB + 1074) ->
  exists v,
    SFord (binary_round_aux prec emax false (Zpos mz) ez loc_Exact) = Some v /\
    0 <= v <= Zpos mB * 2 ^ (eB + 1074).
Proof.
  intros He Hn B Hle.
  pose proof (fexp_le_bound _ _ _ _ He B Hle) as He1.
  destruct (bounded_inv _ _ B) as ((LB & UB) & _).
  unfold binary_round_aux, shr_fexp. cbn [Zdigits2 shr_record_of_loc].
  set (e1 := fexp prec emax (Zpos (digits2_pos mz) + ez)) in *.
  destruct (shr_spec (Zpos mz) ez (e1 - ez) ltac:(lia)) as (mrs1 & E1 & Hm1 & Hx1).
  rewrite E1. clear E1.
  replace (Z.max 0 (e1 - ez)) with (e1 - ez) in * by (clear - Hn; lia).
  replace (ez + (e1 - ez)) with e1 by (clear; lia).
  set (rounded := round_nearest_even (shr_m mrs1) (loc_of_shr_record mrs1)).
  destruct (round_nearest_even_bounds (shr_m mrs1) (loc_of_shr_record mrs1))
    as [Hr Hrx].
  fold rounded in Hr, Hrx.
  (* the bound is a multiple [K] of the unit [g] of the result *)
  pose proof (pow2_pos (ez + 1074) ltac:(lia)) as Ph.
  pose proof (pow2_pos (e1 - ez) ltac:(lia)) as Ps.
  pose proof (pow2_pos (eB - e1) ltac:(lia)) as Pk.
  assert (2 ^ (e1 + 1074) = 2 ^ (e1 - ez) * 2 ^ (ez + 1074)) as Eg.
  { rewrite <- Z.pow_add_r by lia. f_equal. lia. }
  assert (2 ^ (eB + 1074) = 2 ^ (eB - e1) * 2 ^ (e1 + 1074)) as EB.
  { rewrite <- Z.pow_add_r by lia. f_equal. lia. }
  pose proof (pow2_pos (e1 + 1074) ltac:(lia)) as Pg.
  set (K := Zpos mB * 2 ^ (eB - e1)).
  assert (Zpos mB * 2 ^ (eB + 1074) = K * 2 ^ (e1 + 1074)) as EK.
  { unfold K. rewrite EB. ring. }
  rewrite EK in *.
  assert (Zpos mz <= 2 ^ (e1 - ez) * K) as HMK.
  { apply Z.mul_le_mono_pos_r with (2 ^ (ez + 1074)); [exact Ph|].
    replace (2 ^ (e1 - ez) * K * 2 ^ (ez + 1074)) with (K * 2 ^ (e1 + 1074))
      by (rewrite Eg; ring).
    exact Hle. }
  assert (rounded <= K) as HrK.
  { destruct (Z.eq_dec (Zpos mz mod 2 ^ (e1 - ez)) 0) as [Hx|Hx].
    - rewrite (Hrx (Hx1 Hx)), Hm1. apply Z.div_le_upper_bound; assumption.
    - assert (Zpos mz <> 2 ^ (e1 - ez) * K) as Hne.
      { intros E. apply Hx. rewrite E, Z.mul_comm. apply Z.mod_mul.
        clear - Ps; lia. }
      assert (shr_m mrs1 < K).
      { rewrite Hm1. apply Z.div_lt_upper_bound; [exact Ps|]. clear - HMK Hne. lia. }
      clear - H Hr. lia. }
  assert (0 <= rounded) as Hr0.
  { assert (0 <= shr_m mrs1) by (rewrite Hm1; apply Z.div_pos; [lia|exact Ps]).
    clear - H Hr. lia. }
  set (n2 := fexp prec emax (Zdigits2 rounded + e1) - e1).
  destruct (shr_spec rounded e1 n2 Hr0) as (mrs2 & E2 & Hm2 & _).
  rewrite E2. clear E2.
  pose proof (pow2_pos (Z.max 0 n2) ltac:(lia)) as Pt.
  destruct (shr_m mrs2) as [|p|p] eqn:Em2.
  - exists 0. cbn [SFord]. split; [reflexivity|].
    split; [lia|]. apply Z.mul_nonneg_nonneg; [|lia].
    unfold K. apply Z.mul_nonneg_nonneg; lia.
  - assert (Zpos p * 2 ^ Z.max 0 n2 <= rounded) as Hp.
    { rewrite Hm2, Z.mul_comm. apply Z.mul_div_le. exact Pt. }
    assert (0 < rounded) as Hrp.
    { apply Z.lt_le_trans with (2 := Hp). apply Z.mul_pos_pos; [lia|exact Pt]. }
    assert (rounded * 2 ^ (e1 + 1074) <= K * 2 ^ (e1 + 1074)) as HrB
        by (apply Z.mul_le_mono_nonneg_r; [lia|exact HrK]).
    assert (e1 + Z.max 0 n2 <= eB) as He2.
    { destruct (Z.max_spec 0 n2) as [[_ ->]|[_ ->]].
      - unfold n2. replace (e1 + (fexp prec emax (Zdigits2 rounded + e1) - e1))
          with (fexp prec emax (Zdigits2 rounded + e1)) by (clear; lia).
        destruct rounded as [|r|r]; try (clear - Hrp; lia).
        cbn [Zdigits2]. rewrite <- EK in HrB.
        apply (fexp_le_bound r mB e1 eB); [|exact B|exact HrB].
        apply fexp_ge_emin.
      - rewrite Z.add_0_r. exact He1. }
    replace (e1 + Z.max 0 n2 <=? emax - prec) with true
      by (symmetry; apply Z.leb_le; unfold emax, prec; clear - He2 UB; lia).
    eexists. cbn [SFord cond_Zopp]. split; [reflexivity|].
    split; [apply Z.mul_nonneg_nonneg; lia|].
    apply Z.le_trans with (2 := HrB).
    replace (e1 + Z.max 0 n2 + 1074) with (Z.max 0 n2 + (e1 + 1074)) by (clear; lia).
    rewrite Z.pow_add_r, Z.mul_assoc by lia.
    apply Z.mul_le_mono_nonneg_r; [lia|exact Hp].
  - exfalso. assert (0 <= Zneg p) by (rewrite Hm2; apply Z.div_pos; [lia|exact Pt]).
    clear - H. lia.
Qed.


Lemma iter_xO_spec (m d : positive) :
  Zpos (Pos.iter xO m d) = Zpos m * 2 ^ Zpos d /\
  Zpos (digits2_pos (Pos.iter xO m d)) = Zpos (digits2_pos m) + Zpos d.
Proof.
  induction d as [|d [IH1 IH2]] using Pos.peano_ind.
  - cbn [Pos.iter digits2_pos]. rewrite Pos2Z.inj_succ. split; lia.
  - rewrite Pos.iter_succ. cbn [digits2_pos].
    rewrite !Pos2Z.inj_succ, (Pos2Z.inj_xO (Pos.iter xO m d)), IH1, IH2.
    rewrite Z.pow_succ_r by lia. split; ring.
Qed.

Lemma shl_align_spec (mx : positive) (ex ex' : Z) :
  exists mz,
    shl_align mx ex ex' = (mz, Z.min ex ex') /\
    Zpos mz = Zpos mx * 2 ^ (ex - Z.min ex ex') /\
    Zpos (digits2_pos mz) + Z.min ex ex' = Zpos (digits2_pos mx) + ex.
Proof.
  unfold shl_align. destruct (ex' - ex) as [|d|d] eqn:E.
  - exists mx. replace (Z.min ex ex') with ex by lia.
    rewrite Z.sub_diag, Z.pow_0_r. repeat split; lia.
  - exists mx. replace (Z.min ex ex') with ex by lia.
    rewrite Z.sub_diag, Z.pow_0_r. repeat split; lia.
  - exists (Pos.iter xO mx d). replace (Z.min ex ex') with ex' by lia.
    destruct (iter_xO_spec mx d) as [H1 H2].
    replace (ex - ex') with (Zpos d) by lia. repeat split; lia.
Qed.

Lemma binary_round_ub (mx mB : positive) (ex eB : Z) :
  -1074 <= ex -> bounded prec emax mB eB = true ->
  Zpos mx * 2 ^ (ex + 1074) <= Zpos mB * 2 ^ (eB + 1074) ->
  exists v,
    SFord (binary_round prec emax false mx ex) = Some v /\
    0 <= v <= Zpos mB * 2 ^ (eB + 1074).
Proof.
  intros He B Hle. unfold binary_round.
  set (e1 := fexp prec emax (Zpos (digits2_pos mx) + ex)).
  destruct (shl_align_spec mx ex e1) as (mz & -> & Hm & Hd).
  pose proof (fexp_ge_emin (Zpos (digits2_pos mx) + ex)) as He1. fold e1 in He1.
  apply binary_round_aux_ub.
  - lia.
  - rewrite Hd. fold e1. lia.
  - exact B.
  - rewrite Hm, <- Z.mul_assoc, <- Z.pow_add_r by lia.
    replace (ex - Z.min ex e1 + (Z.min ex e1 + 1074)) with (ex + 1074) by lia.
    exact Hle.
Qed.

Lemma binary_normalize_ub (M : Z) (mB : positive) (ez eB : Z) :
  -1074 <= ez -> bounded prec emax mB eB = true -> 0 <= M ->
  M * 2 ^ (ez + 1074) <= Zpos mB * 2 ^ (eB + 1074) ->
  exists v,
    SFord (binary_normalize prec emax M ez false) = Some v /\
    0 <= v <= Zpos mB * 2 ^ (eB + 1074).
Proof.
  intros He B HM Hle. destruct M as [|p|p]; cbn [binary_normalize].
  - exists 0. cbn [SFord]. pose proof (bounded_value _ _ B). split; [reflexivity|lia].
  - apply binary_round_ub; assumption.
  - lia.
Qed.

Lemma aligned_value (m : positive) (e ez : Z) :
  -1074 <= ez -> ez <= e ->
  Zpos (fst (shl_align m e ez)) * 2 ^ (ez + 1074) = Zpos m * 2 ^ (e + 1074).
Proof.
  intros L H. destruct (shl_align_spec m e ez) as (mz & -> & Hm & _).
  cbn [fst]. rewrite Hm. replace (Z.min e ez) with ez by lia.
  rewrite <- Z.mul_assoc, <- Z.pow_add_r by lia. do 2 f_equal. lia.
Qed.

Lemma SFadd_finite_ub (mx my mB : positive) (ex ey eB : Z) :
  bounded prec emax mx ex = true -> bounded prec emax my ey = true ->
  bounded prec emax mB eB = true ->
  Zpos mx * 2 ^ (ex + 1074) + Zpos my * 2 ^ (ey + 1074) <= Zpos mB * 2 ^ (eB + 1074) ->
  exists v,
    SFord (SF64add (S754_finite false mx ex) (S754_finite false my ey)) = Some v /\
    0 <= v <= Zpos mB * 2 ^ (eB + 1074).
Proof.
  intros Bx By B Hle.
  destruct (bounded_inv _ _ Bx) as ((Lx & _) & _).
  destruct (bounded_inv _ _ By) as ((Ly & _) & _).
  unfold SF64add, SFadd. cbn [cond_Zopp].
  apply binary_normalize_ub; [lia|exact B|lia|].
  rewrite Z.mul_add_distr_r, !aligned_value by lia. exact Hle.
Qed.

Lemma SFsub_finite_ub (mx my mB : positive) (ex ey eB : Z) :
  bounded prec emax mx ex = true -> bounded prec emax my ey = true ->
  bounded prec emax mB eB = true ->
  Zpos my * 2 ^ (ey + 1074) <= Zpos mx * 2 ^ (ex + 1074) ->
  Zpos mx * 2 ^ (ex + 1074) - Zpos my * 2 ^ (ey + 1074) <= Zpos mB * 2 ^ (eB + 1074) ->
  exists v,
    SFord (SF64sub (S754_finite false mx ex) (S754_finite false my ey)) = Some v /\
    0 <= v <= Zpos mB * 2 ^ (eB + 1074).
Proof.
  intros Bx By B Hyx Hle.
  destruct (bounded_inv _ _ Bx) as ((Lx & _) & _).
  destruct (bounded_inv _ _ By) as ((Ly & _) & _).
  unfold SF64sub, SFsub. cbn [cond_Zopp].
  pose proof (aligned_value mx ex (Z.min ex ey) ltac:(lia) ltac:(lia)) as Ax.
  pose proof (aligned_value my ey (Z.min ex ey) ltac:(lia) ltac:(lia)) as Ay.
  pose proof (pow2_pos (Z.min ex ey + 1074) ltac:(lia)) as P.
  apply binary_normalize_ub; [lia|exact B| |].
  - rewrite <- Ax, <- Ay in Hyx. apply Z.mul_le_mono_pos_r in Hyx; [|exact P].
    clear - Hyx. lia.
  - rewrite Z.mul_sub_distr_r, Ax, Ay. exact Hle.
Qed.


(** *** The same facts on primitive floats *)

Lemma some_eq {A : Type} (a b : A) : Some a = Some b -> a = b.
Proof. congruence. Qed.

Lemma ford_finite_pos (x : float) (a : Z) :
  ford x = Some a -> 0 < a < big ->
  exists m e, Prim2SF x = S754_finite false m e /\
              bounded prec emax m e = true /\ a = Zpos m * 2 ^ (e + 1074).
Proof.
  unfold ford. pose proof (Prim2SF_valid x) as V.
  destruct (Prim2SF x) as [s|s| |s m e]; cbn [SFord valid_binary] in *;
    intros E Ha; try discriminate; apply some_eq in E; subst a; try lia.
  - destruct s; cbn [cond_Zopp] in Ha; lia.
  - pose proof (bounded_value _ _ V). destruct s; cbn [cond_Zopp] in Ha; [lia|].
    exists m, e. auto.
Qed.

Lemma fadd_ub (x c B : float) (a b vB : Z) :
  ford x = Some a -> ford c = Some b -> ford B = Some vB ->
  0 <= a -> 0 < b -> 0 < vB < big -> a + b <= vB ->
  exists v, ford (x + c) = Some v /\ 0 <= v <= vB.
Proof.
  intros Hx Hc HB Ha Hb HvB Hle.
  destruct (ford_finite_pos B vB HB HvB) as (mB & eB & EB & BB & ->).
  destruct (ford_finite_pos c b Hc ltac:(lia)) as (mc & ec & Ec & Bc & ->).
  unfold ford. rewrite add_spec, Ec.
  destruct (Z.eq_dec a 0) as [->|Hnz].
  - revert Hx. unfold ford. pose proof (Prim2SF_valid x) as V.
    destruct (Prim2SF x) as [s|s| |s m e]; cbn [SFord valid_binary] in *;
      intros Hx; try discriminate; apply some_eq in Hx.
    + exists (Zpos mc * 2 ^ (ec + 1074)). unfold SF64add.
      cbn [SFadd SFord cond_Zopp]. split; [reflexivity|lia].
    + pose proof big_pos. destruct s; cbn [cond_Zopp] in Hx; lia.
    + pose proof (bounded_value _ _ V). destruct s; cbn [cond_Zopp] in Hx; lia.
  - destruct (ford_finite_pos x a Hx ltac:(lia)) as (mx & ex & Ex & Bx & ->).
    rewrite Ex. apply SFadd_finite_ub; assumption.
Qed.

Lemma fsub_ub (x c B : float) (a b vB : Z) :
  ford x = Some a -> ford c = Some b -> ford B = Some vB ->
  0 < b -> b <= a -> a < big -> 0 < vB < big -> a - b <= vB ->
  exists v, ford (x - c) = Some v /\ 0 <= v <= vB.
Proof.
  intros Hx Hc HB Hb Hba Ha HvB Hle.
  destruct (ford_finite_pos B vB HB HvB) as (mB & eB & EB & BB & ->).
  destruct (ford_finite_pos c b Hc ltac:(lia)) as (mc & ec & Ec & Bc & ->).
  destruct (ford_finite_pos x a Hx ltac:(lia)) as (mx & ex & Ex & Bx & ->).
  unfold ford. rewrite sub_spec, Ec, Ex. apply SFsub_finite_ub; assumption.
Qed.

(** Below a float that is no power of two, the next float is a whole unit
    of that float lower. *)
Lemma ford_gap (x B : float) (a : Z) (mB : positive) (eB : Z) :
  ford x = Some a -> Prim2SF B = S754_finite false mB eB -> 2 ^ 52 < Zpos mB ->
  a < Zpos mB * 2 ^ (eB + 1074) -> a <= (Zpos mB - 1) * 2 ^ (eB + 1074).
Proof.
  intros Hx EB HmB Hlt.
  pose proof (Prim2SF_valid B) as VB. rewrite EB in VB. cbn [valid_binary] in VB.
  destruct (bounded_inv _ _ VB) as ((LB & _) & _).
  pose proof (pow2_pos (eB + 1074) ltac:(lia)) as PB.
  assert (0 <= (Zpos mB - 1) * 2 ^ (eB + 1074)) as H0
      by (apply Z.mul_nonneg_nonneg; lia).
  destruct (Z_le_gt_dec a 0) as [Ha|Ha]; [lia|].
  pose proof (bounded_value _ _ VB) as [_ HBbig].
  destruct (ford_finite_pos x a Hx ltac:(lia)) as (m & e & _ & Bx & ->).
  destruct (bounded_inv _ _ Bx) as ((Lx & _) & _).
  destruct (bounded_mantissa _ _ Bx) as [Um _].
  pose proof (pow2_pos (e + 1074) ltac:(lia)) as P.
  destruct (Z_le_gt_dec eB e) as [Hee|Hee].
  - rewrite (pow2_split (eB + 1074) (e + 1074)) in * by lia.
    rewrite Z.mul_assoc in *. apply Z.mul_le_mono_nonneg_r; [lia|].
    apply Z.mul_lt_mono_pos_r in Hlt; [|exact PB]. clear - Hlt. lia.
  - rewrite (pow2_split (e + 1074) (eB + 1074)) by lia.
    assert (2 ^ 1 <= 2 ^ (eB + 1074 - (e + 1074))) as Q
        by (apply Z.pow_le_mono_r; lia).
    change (2 ^ 1) with 2 in Q.
    rewrite Z.mul_assoc. apply Z.mul_le_mono_nonneg_r; [lia|].
    apply Z.le_trans with (2 ^ 52 * 2).
    + change (2 ^ 52 * 2) with (2 ^ 53). clear - Um. lia.
    + apply Z.mul_le_mono_nonneg; clear - HmB Q; lia.
Qed.

Lemma ford_inj (x y : float) (a : Z) :
  ford x = Some a -> ford y = Some a -> a <> 0 -> x = y.
Proof.
  unfold ford. intros Hx Hy Ha. apply Prim2SF_inj.
  pose proof (Prim2SF_valid x) as Vx. pose proof (Prim2SF_valid y) as Vy.
  pose proof big_pos as Hbig.
  destruct (Prim2SF x) as [sx|sx| |sx mx ex], (Prim2SF y) as [sy|sy| |sy my ey];
    cbn [SFord valid_binary] in *; try discriminate;
    apply some_eq in Hx; apply some_eq in Hy; subst a;
    try (pose proof (bounded_value _ _ Vx) as Bx);
    try (pose proof (bounded_value _ _ Vy) as By);
    try (destruct sx; cbn [cond_Zopp] in *); try (destruct sy; cbn [cond_Zopp] in *);
    try lia; try reflexivity.
  - pose proof (finite_compare _ _ _ _ Vx Vy) as C.
    assert (Zpos mx * 2 ^ (ex + 1074) = Zpos my * 2 ^ (ey + 1074)) as E by lia.
    rewrite E, Z.compare_refl in C.
    destruct (Z.compare_spec ex ey) as [->|?|?]; try discriminate.
    apply Pos.compare_eq in C. now subst.
  - pose proof (finite_compare _ _ _ _ Vx Vy) as C.
    rewrite Hy, Z.compare_refl in C.
    destruct (Z.compare_spec ex ey) as [->|?|?]; try discriminate.
    apply Pos.compare_eq in C. now subst.
Qed.

End IEEE.

(** * One update of one cell

    With the constants of the program: a cell the guard admits stays in
    [[0, 1]] through the subtraction, and the observed cell through the
    subtraction and the addition. *)

Module Bounds.
Import Binary64 IEEE.

(** The constants in units of 2^-1074; [2 ^ 1015] is the unit of the last
    place of [decrease_value]. *)
Lemma ford_decrease_value : ford decrease_value = Some (5764607523034235 * 2 ^ 1015).
Proof. vm_compute. reflexivity. Qed.

Lemma ford_bottom_limit : ford bottom_limit = Some (5764607523034235 * 2 ^ 1015).
Proof. vm_compute. reflexivity. Qed.

Lemma ford_increase_value : ford increase_value = Some (8 * 7205759403792794 * 2 ^ 1015).
Proof. vm_compute. reflexivity. Qed.

Lemma ford_upper_limit : ford upper_limit = Some (64 * 8196551321814303 * 2 ^ 1015).
Proof. vm_compute. reflexivity. Qed.

Lemma ford_one : ford 1 = Some (128 * 4503599627370496 * 2 ^ 1015).
Proof. vm_compute. reflexivity. Qed.

Lemma ford_zero : ford 0 = Some 0.
Proof. vm_compute. reflexivity. Qed.

Lemma ford_drained_limit : ford drained_limit = Some (64 * 8106479329266893 * 2 ^ 1015).
Proof. vm_compute. reflexivity. Qed.

Lemma big_unit : 2 ^ 70 * 2 ^ 1015 < big.
Proof. reflexivity. Qed.

Lemma in_unit_ford (x : float) (v : Z) :
  ford x = Some v -> 0 <= v <= 128 * 4503599627370496 * 2 ^ 1015 -> in_unit x.
Proof.
  intros Hx Hv. unfold in_unit. rewrite !leb_ford, Hx, ford_zero, ford_one.
  split; apply Z.leb_le; lia.
Qed.

Lemma leb_ford_inv (x y : float) :
  (x <=? y)%float = true -> exists a b, ford x = Some a /\ ford y = Some b /\ a <= b.
Proof.
  rewrite leb_ford. destruct (ford x) as [a|], (ford y) as [b|]; try discriminate.
  intros H. apply Z.leb_le in H. eauto.
Qed.

Lemma sub_in_unit (x : float) :
  (bottom_limit <=? x)%float = true -> (x <=? 1)%float = true ->
  in_unit (x - decrease_value).
Proof.
  intros Hb H1.
  apply leb_ford_inv in Hb. destruct Hb as (b & a & Eb & Ea & Hba).
  apply leb_ford_inv in H1. destruct H1 as (a' & o & Ea' & Eo & Hao).
  rewrite Ea in Ea'. apply some_eq in Ea'. subst a'.
  rewrite ford_bottom_limit in Eb. apply some_eq in Eb. subst b.
  pose proof ford_one as E1. rewrite Eo in E1. apply some_eq in E1. subst o.
  pose proof big_unit as Hbig. pose proof (pow2_pos 1015 ltac:(lia)) as Pu.
  pose proof ford_decrease_value as Edec.
  pose proof (in_unit_ford (x - decrease_value)) as Hin.
  set (u := 2 ^ 1015) in *. clearbody u.
  destruct (fsub_ub x decrease_value 1 a _ _ Ea Edec Eo) as (v & Ev & Hv); try lia.
  apply (Hin v Ev). lia.
Qed.

Lemma bump_in_unit (x : float) :
  (bottom_limit <=? x)%float = true -> (x <=? upper_limit)%float = true ->
  in_unit (x - decrease_value + increase_value).
Proof.
  intros Hb H1.
  apply leb_ford_inv in Hb. destruct Hb as (b & a & Eb & Ea & Hba).
  apply leb_ford_inv in H1. destruct H1 as (a' & o & Ea' & Eo & Hao).
  rewrite Ea in Ea'. apply some_eq in Ea'. subst a'.
  rewrite ford_bottom_limit in Eb. apply some_eq in Eb. subst b.
  pose proof ford_upper_limit as E1. rewrite Eo in E1. apply some_eq in E1. subst o.
  destruct (Z.eq_dec a (64 * 8196551321814303 * 2 ^ 1015)) as [->|Hne].
  { assert (x = upper_limit) as -> by (apply (ford_inj _ _ _ Ea Eo); discriminate).
    vm_compute. split; reflexivity. }
  assert (a <= (8196551321814303 - 1) * 2 ^ (-53 + 1074)) as Hgap.
  { apply (ford_gap x upper_limit a 8196551321814303 (-53) Ea);
      [vm_compute; reflexivity|reflexivity|].
    change (2 ^ (-53 + 1074)) with (64 * 2 ^ 1015). lia. }
  change (2 ^ (-53 + 1074)) with (64 * 2 ^ 1015) in Hgap.
  pose proof big_unit as Hbig. pose proof (pow2_pos 1015 ltac:(lia)) as Pu.
  pose proof ford_drained_limit as Ed. pose proof ford_one as E1.
  pose proof ford_increase_value as Ei. pose proof ford_decrease_value as Edec.
  pose proof (in_unit_ford (x - decrease_value + increase_value)) as Hin.
  assert (Prim2SF drained_limit = S754_finite false 8106479329266893 (-53)) as Sd
      by (vm_compute; reflexivity).
  assert (64 * 8106479329266893 * 2 ^ 1015 <> 0) as Hd0 by discriminate.
  assert (forall v, v < 8106479329266893 * 2 ^ (-53 + 1074) <->
                    v < 64 * 8106479329266893 * 2 ^ 1015) as Hch
      by (intros v; change (2 ^ (-53 + 1074)) with (64 * 2 ^ 1015); lia).
  assert (forall v, v <= (8106479329266893 - 1) * 2 ^ (-53 + 1074) <->
                    v <= 64 * 8106479329266892 * 2 ^ 1015) as Hch'
      by (intros v; change (2 ^ (-53 + 1074)) with (64 * 2 ^ 1015); lia).
  set (u := 2 ^ 1015) in *. clearbody u.
  destruct (fsub_ub x decrease_value drained_limit a _ _ Ea Edec Ed)
    as (v & Ev & Hv); try lia.
  destruct (Z.eq_dec v (64 * 8106479329266893 * u)) as [->|Hne'].
  { assert (x - decrease_value = drained_limit)%float as ->
        by (apply (ford_inj _ _ _ Ev Ed); exact Hd0).
    vm_compute. split; reflexivity. }
  assert (v <= (8106479329266893 - 1) * 2 ^ (-53 + 1074)) as Hgap'.
  { apply (ford_gap _ drained_limit v 8106479329266893 (-53) Ev Sd);
      [reflexivity|]. apply Hch. lia. }
  apply Hch' in Hgap'.
  destruct (fadd_ub (x - decrease_value) increase_value 1 v _ _ Ev Ei E1)
    as (w & Ew & Hw); try lia.
  apply (Hin w Ew). lia.
Qed.

End Bounds.

(** * Arrays, states and dicts *)

Module NpFacts.

Lemma index_nonneg (n : nat) (i : Z) :
  0 <= i ->
  Np.index n i = if i <? Z.of_nat n then Ok (Z.to_nat i) else Raise IndexError.
Proof.
  intros Hi. unfold Np.index.
  destruct (Z.leb_spec 0 i); [|lia].
  destruct (Z.ltb_spec i (Z.of_nat n)); cbn [andb]; [reflexivity|].
  destruct (Z.ltb_spec i 0); [lia|]. now rewrite andb_false_r.
Qed.

Lemma index_lt (n : nat) (i : Z) (k : nat) : Np.index n i = Ok k -> (k < n)%nat.
Proof.
  unfold Np.index.
  destruct (Z.leb_spec 0 i), (Z.ltb_spec i (Z.of_nat n)); cbn [andb];
    try (intros [= <-]; lia);
    destruct (Z.leb_spec (- Z.of_nat n) i), (Z.ltb_spec i 0); cbn [andb];
    try discriminate; intros [= <-]; lia.
Qed.

Lemma index_total (n : nat) (i : Z) :
  - Z.of_nat n <= i < Z.of_nat n -> exists k, Np.index n i = Ok k.
Proof.
  intros Hi. unfold Np.index.
  destruct (Z.leb_spec 0 i), (Z.ltb_spec i (Z.of_nat n)); cbn [andb]; eauto; try lia.
  destruct (Z.leb_spec (- Z.of_nat n) i), (Z.ltb_spec i 0); cbn [andb]; eauto; lia.
Qed.

Lemma getitem_nonneg {A : Type} (a : list A) (i : Z) :
  0 <= i ->
  Np.getitem a i =
  match nth_error a (Z.to_nat i) with Some x => Ok x | None => Raise IndexError end.
Proof.
  intros Hi. unfold Np.getitem. rewrite index_nonneg by assumption.
  destruct (Z.ltb_spec i (Z.of_nat (length a))); cbn [bind]; [reflexivity|].
  assert (nth_error a (Z.to_nat i) = None) as -> by (apply nth_error_None; lia).
  reflexivity.
Qed.

Lemma setitem_nonneg {A : Type} (a : list A) (i : Z) (x : A) :
  0 <= i ->
  Np.setitem a i x =
  if i <? Z.of_nat (length a) then Ok (Np.set_nth a (Z.to_nat i) x)
  else Raise IndexError.
Proof.
  intros Hi. unfold Np.setitem. rewrite index_nonneg by assumption.
  destruct (i <? Z.of_nat (length a)); reflexivity.
Qed.

Lemma getitem_inv {A : Type} (a : list A) (i : Z) (x : A) :
  Np.getitem a i = Ok x ->
  exists k, Np.index (length a) i = Ok k /\ nth_error a k = Some x.
Proof.
  unfold Np.getitem. destruct (Np.index (length a) i) as [k|e]; cbn [bind];
    [|discriminate].
  destruct (nth_error a k) as [y|] eqn:E; [|discriminate].
  intros [= <-]. eauto.
Qed.

Lemma getitem_In {A : Type} (a : list A) (i : Z) (x : A) :
  Np.getitem a i = Ok x -> In x a.
Proof.
  intros H. apply getitem_inv in H. destruct H as (k & _ & H).
  eapply nth_error_In; eassumption.
Qed.

Lemma getitem_total {A : Type} (a : list A) (i : Z) :
  - Z.of_nat (length a) <= i < Z.of_nat (length a) -> exists x, Np.getitem a i = Ok x.
Proof.
  intros Hi. unfold Np.getitem. destruct (index_total _ _ Hi) as (k & E).
  rewrite E. cbn [bind]. apply index_lt in E.
  destruct (nth_error a k) eqn:N; [eauto|]. apply nth_error_None in N. lia.
Qed.

Lemma getitem_map {A B : Type} (f : A -> B) (a : list A) (i : Z) (x : A) :
  Np.getitem a i = Ok x -> Np.getitem (map f a) i = Ok (f x).
Proof.
  intros H. apply getitem_inv in H. destruct H as (k & Ek & Hk).
  unfold Np.getitem. rewrite length_map, Ek. cbn [bind].
  rewrite nth_error_map, Hk. reflexivity.
Qed.

Lemma length_set_nth {A : Type} (a : list A) (k : nat) (x : A) :
  length (Np.set_nth a k x) = length a.
Proof.
  revert k. induction a as [|y a IH]; intros [|k]; cbn; try reflexivity.
  now rewrite IH.
Qed.

Lemma nth_error_set_nth_eq {A : Type} (a : list A) (k : nat) (x : A) :
  (k < length a)%nat -> nth_error (Np.set_nth a k x) k = Some x.
Proof.
  revert k. induction a as [|y a IH]; intros [|k] H; cbn in *; try lia; try reflexivity.
  apply IH. lia.
Qed.

Lemma nth_error_set_nth_ne {A : Type} (a : list A) (k j : nat) (x : A) :
  k <> j -> nth_error (Np.set_nth a k x) j = nth_error a j.
Proof.
  revert k j. induction a as [|y a IH]; intros [|k] [|j] H; cbn; try reflexivity;
    try congruence.
  apply IH. congruence.
Qed.

Lemma Forall_set_nth {A : Type} (P : A -> Prop) (a : list A) (k : nat) (x : A) :
  Forall P a -> P x -> Forall P (Np.set_nth a k x).
Proof.
  intros Ha Hx. revert k. induction Ha as [|y a Hy Ha IH]; intros [|k]; cbn;
    constructor; auto.
Qed.

Lemma value_range (s : States) : -1 <= value s <= 8.
Proof. destruct s; cbn; lia. Qed.

Lemma value_concrete (s : States) : s <> EM -> 0 <= value s <= 8.
Proof. destruct s; cbn; intros; try lia. congruence. Qed.

Lemma value_inj (s t : States) : value s = value t -> s = t.
Proof. destruct s, t; cbn; intros; (reflexivity || lia). Qed.

Lemma States_eqb_eq (s t : States) : States_eqb s t = true <-> s = t.
Proof.
  unfold States_eqb. rewrite Z.eqb_eq. split; [apply value_inj|now intros ->].
Qed.

Lemma States_eqb_EM (s : States) : s <> EM -> States_eqb s EM = false.
Proof.
  intros H. destruct (States_eqb s EM) eqn:E; [|reflexivity].
  apply States_eqb_eq in E. contradiction.
Qed.

(** [np.min] is a lower bound of the array, whenever it is comparable. *)
Lemma minimum_ge (b acc x : float) :
  (b <=? Np.minimum acc x)%float = true ->
  (b <=? acc)%float = true /\ (b <=? x)%float = true.
Proof.
  unfold Np.minimum.
  destruct ((acc <? x)%float || is_nan acc) eqn:C; intros H;
    revert C H; rewrite IEEE.ltb_ford, IEEE.is_nan_ford, !IEEE.leb_ford;
    destruct (Binary64.ford b) as [vb|], (Binary64.ford acc) as [va|],
             (Binary64.ford x) as [vx|];
    cbn [orb]; rewrite ?orb_false_r, ?orb_true_r; try discriminate;
    rewrite ?Z.leb_le; intros C H;
    try (destruct (Z.ltb_spec va vx); try discriminate); auto with zarith.
Qed.

Lemma fold_minimum_ge (b : float) (a : list float) (acc : float) :
  (b <=? fold_left Np.minimum a acc)%float = true ->
  (b <=? acc)%float = true /\ Forall (fun x => (b <=? x)%float = true) a.
Proof.
  revert acc. induction a as [|x a IH]; intros acc H; cbn [fold_left] in H.
  - auto.
  - apply IH in H. destruct H as [H Ha]. apply minimum_ge in H. destruct H.
    auto.
Qed.

Lemma min_ge (b : float) (a : list float) (m : float) :
  Np.min a = Ok m -> (b <=? m)%float = true ->
  Forall (fun x => (b <=? x)%float = true) a.
Proof.
  destruct a as [|x a]; cbn [Np.min]; [discriminate|].
  intros [= <-] H. apply fold_minimum_ge in H. destruct H. auto.
Qed.

End NpFacts.

(** * The updater, step by step *)

Module Updater.
Import NpFacts.

Lemma concrete_lt_length {A : Type} (a : list A) (s : States) (x : A) :
  s <> EM -> Np.getitem a (value s) = Ok x ->
  nth_error a (Z.to_nat (value s)) = Some x /\ value s < Z.of_nat (length a).
Proof.
  intros Hs H. pose proof (value_concrete s Hs) as Hv.
  rewrite getitem_nonneg in H by lia.
  destruct (nth_error a (Z.to_nat (value s))) as [y|] eqn:E; [|discriminate].
  injection H as ->. split; [reflexivity|].
  assert (Z.to_nat (value s) < length a)%nat by (apply nth_error_Some; congruence).
  lia.
Qed.

(** What a passing guard has checked. *)
Lemma guard_true (vector : list float) (o : States) :
  guard vector o = Ok true ->
  exists c, Np.getitem vector (value o) = Ok c /\
            (c <=? upper_limit)%float = true /\
            Forall (fun x => (bottom_limit <=? x)%float = true) vector.
Proof.
  unfold guard. destruct (Np.getitem vector (value o)) as [c|e]; cbn [bind];
    [|discriminate].
  destruct (c <=? upper_limit)%float eqn:Ec; [|discriminate].
  destruct (Np.min vector) as [m|e] eqn:Em; cbn [bind]; [|discriminate].
  intros [= H]. exists c. split; [reflexivity|]. split; [exact Ec|].
  eapply min_ge; eassumption.
Qed.

(** The guard raises nothing once the observed cell exists. *)
Lemma guard_total (vector : list float) (o : States) (c : float) :
  Np.getitem vector (value o) = Ok c -> exists g, guard vector o = Ok g.
Proof.
  intros Hc. unfold guard. rewrite Hc. cbn [bind].
  destruct (c <=? upper_limit)%float; [|eauto].
  destruct vector as [|x vector]; [|cbn [Np.min bind]; eauto].
  apply getitem_In in Hc. destruct Hc.
Qed.

Lemma bump_spec (vector : list float) (o : States) (c : float) :
  Np.getitem vector (value o) = Ok c ->
  exists k, Np.index (length vector) (value o) = Ok k /\
            nth_error vector k = Some c /\
            bump vector o =
            Ok (Np.set_nth (map (fun x => x - decrease_value)%float vector) k
                  (c - decrease_value + increase_value)%float).
Proof.
  intros Hc. unfold bump.
  rewrite (getitem_map _ _ _ _ Hc). cbn [bind].
  apply getitem_inv in Hc. destruct Hc as (k & Ek & Hk).
  exists k. unfold Np.setitem. rewrite length_map, Ek. cbn [bind]. auto.
Qed.

(** One call keeps the shape of the matrix and every cell in [0, 1]. *)
Lemma reinforce_keeps (tm : matrix) (p o : States) :
  shape tm -> Forall (Forall in_unit) tm ->
  exists tm', reinforce tm p o = Ok tm' /\ shape tm' /\ Forall (Forall in_unit) tm'.
Proof.
  intros Hshape Hunit. pose proof Hshape as [Hlen Hrows]. unfold reinforce.
  destruct (States_eqb p EM) eqn:Ep; cbn [negb]; [now exists tm|].
  assert (p <> EM) as Hp by (intros ->; discriminate Ep).
  pose proof (value_concrete p Hp) as Hvp.
  destruct (getitem_total tm (value p) ltac:(lia)) as (vector & Ev).
  rewrite Ev. cbn [bind].
  pose proof (getitem_In _ _ _ Ev) as Hin.
  assert (length vector = 9%nat) as Hlv by (eapply Forall_forall in Hrows; eassumption).
  assert (Forall in_unit vector) as Huv by (eapply Forall_forall in Hunit; eassumption).
  pose proof (value_range o) as Hvo.
  destruct (getitem_total vector (value o) ltac:(lia)) as (c & Ec).
  destruct (guard_total _ _ _ Ec) as ([|] & Eg); rewrite Eg; cbn [bind];
    [|now exists tm].
  destruct (guard_true _ _ Eg) as (c' & Ec' & Hcu & Hb).
  rewrite Ec in Ec'. injection Ec' as <-.
  destruct (bump_spec _ _ _ Ec) as (k & Ek & Hk & ->). cbn [bind].
  rewrite setitem_nonneg by lia.
  destruct (Z.ltb_spec (value p) (Z.of_nat (length tm))); [|lia].
  eexists. split; [reflexivity|].
  set (vector' := Np.set_nth _ k _).
  assert (length vector' = 9%nat) as Hlv'
      by (unfold vector'; now rewrite length_set_nth, length_map).
  assert (Forall in_unit vector') as Huv'.
  { unfold vector'. apply Forall_set_nth.
    - apply Forall_map. rewrite Forall_forall in *. intros x Hx.
      apply Bounds.sub_in_unit; [apply Hb, Hx|apply Huv, Hx].
    - apply Bounds.bump_in_unit; [|exact Hcu].
      rewrite Forall_forall in Hb. apply Hb. eapply nth_error_In; eassumption. }
  repeat split.
  - now rewrite length_set_nth.
  - apply Forall_set_nth; assumption.
  - apply Forall_set_nth; assumption.
Qed.

Lemma transition_matrix_ok :
  shape transition_matrix /\ Forall (Forall in_unit) transition_matrix.
Proof.
  split; [split; [reflexivity|]|];
    repeat constructor.
Qed.

Lemma run_keeps (calls : list (States * States)) :
  forall tm, shape tm -> Forall (Forall in_unit) tm ->
  exists tm', run calls tm = Ok tm' /\ shape tm' /\ Forall (Forall in_unit) tm'.
Proof.
  induction calls as [|[p o] calls IH]; intros tm Hs Hu; cbn [run].
  - eauto.
  - destruct (reinforce_keeps tm p o Hs Hu) as (tm1 & -> & Hs1 & Hu1).
    cbn [bind]. apply IH; assumption.
Qed.

Lemma reachable_ok (tm : matrix) :
  reachable tm -> shape tm /\ Forall (Forall in_unit) tm.
Proof.
  intros [calls Hrun].
  destruct transition_matrix_ok as [Hs Hu].
  destruct (run_keeps calls _ Hs Hu) as (tm' & E & H).
  rewrite Hrun in E. injection E as <-. exact H.
Qed.

Lemma run_app (calls1 calls2 : list (States * States)) (tm : matrix) :
  run (calls1 ++ calls2) tm = (tm' <- run calls1 tm ;; run calls2 tm').
Proof.
  revert tm. induction calls1 as [|[p o] calls1 IH]; intros tm; cbn [run app bind].
  - reflexivity.
  - destruct (reinforce tm p o); cbn [bind]; [apply IH|reflexivity].
Qed.

(** On a matrix of nine rows of nine cells no call raises. *)
Lemma reinforce_total (tm : matrix) (p o : States) :
  shape tm -> exists tm', reinforce tm p o = Ok tm'.
Proof.
  intros [Hlen Hrows]. unfold reinforce.
  destruct (States_eqb p EM) eqn:Ep; cbn [negb]; [eauto|].
  assert (p <> EM) as Hp by (intros ->; discriminate Ep).
  pose proof (value_concrete p Hp) as Hvp.
  destruct (getitem_total tm (value p) ltac:(lia)) as (vector & Ev).
  rewrite Ev. cbn [bind].
  pose proof (getitem_In _ _ _ Ev) as Hin.
  assert (length vector = 9%nat) as Hlv by (eapply Forall_forall in Hrows; eassumption).
  pose proof (value_range o) as Hvo.
  destruct (getitem_total vector (value o) ltac:(lia)) as (c & Ec).
  destruct (guard_total _ _ _ Ec) as ([|] & Eg); rewrite Eg; cbn [bind]; [|eauto].
  destruct (bump_spec _ _ _ Ec) as (k & Ek & Hk & ->). cbn [bind].
  rewrite setitem_nonneg by lia.
  destruct (Z.ltb_spec (value p) (Z.of_nat (length tm))); [eauto|lia].
Qed.

End Updater.

(** * The scan of [argmax] *)

Module Argmax.
Import Binary64.

Ltac order_goal :=
  rewrite ?IEEE.ltb_ford, ?IEEE.leb_ford, ?IEEE.eqb_ford, ?IEEE.is_nan_ford in *;
  repeat match goal with
         | H : ford _ = _ |- _ => rewrite H in *
         end;
  repeat match goal with
         | H : (_ <=? _) = true |- _ => apply Z.leb_le in H
         | H : (_ <=? _) = false |- _ => apply Z.leb_gt in H
         | H : (_ <? _) = true |- _ => apply Z.ltb_lt in H
         | H : (_ <? _) = false |- _ => apply Z.ltb_ge in H
         | H : (_ =? _) = true |- _ => apply Z.eqb_eq in H
         | H : (_ =? _) = false |- _ => apply Z.eqb_neq in H
         end;
  try discriminate; try reflexivity;
  try (first [ apply Z.leb_le | apply Z.leb_gt | apply Z.ltb_lt | apply Z.ltb_ge ]; lia).

(** The index [argmax] returns for three values. *)
Lemma argmax_three (b0 b1 b2 : float) :
  exists p,
    Np.argmax [b0; b1; b2] = Ok p /\ (p < 3)%nat /\
    (forall m, (m < 3)%nat ->
       (nth p [b0; b1; b2] nan <? nth m [b0; b1; b2] nan)%float = false) /\
    (forall m, (m < p)%nat ->
       (nth p [b0; b1; b2] nan <=? nth m [b0; b1; b2] nan)%float = false) /\
    ((b1 <=? b0)%float = true -> (b2 <=? b0)%float = true -> p = 0%nat).
Proof.
  cbn [Np.argmax Np.argmax_from].
  destruct (is_nan b0) eqn:N0;
    [|destruct (b1 <=? b0)%float eqn:L10; cbn [negb];
      [destruct (b2 <=? b0)%float eqn:L20; cbn [negb]
      |destruct (is_nan b1) eqn:N1;
       [|destruct (b2 <=? b1)%float eqn:L21; cbn [negb]]]];
    eexists; (split; [reflexivity|]); (split; [lia|]);
    (split; [|split]);
    try (intros [|[|[|m]]] Hm; cbn [nth]; try lia; order_goal;
         destruct (ford b0), (ford b1), (ford b2); order_goal);
    intros; try congruence; try reflexivity.
Qed.

Lemma not_ltb_leb (x y : float) :
  is_nan x = false -> is_nan y = false ->
  (x <? y)%float = false -> (y <=? x)%float = true.
Proof. intros Nx Ny H. order_goal; destruct (ford x), (ford y); order_goal. Qed.

Lemma not_leb_ltb (x y : float) :
  is_nan x = false -> is_nan y = false ->
  (x <=? y)%float = false -> (y <? x)%float = true.
Proof. intros Nx Ny H. order_goal; destruct (ford x), (ford y); order_goal. Qed.

Lemma eqb_leb (x y : float) : (x =? y)%float = true -> (x <=? y)%float = true.
Proof. intros H. order_goal; destruct (ford x), (ford y); order_goal. Qed.

End Argmax.

(** * The properties *)

(** ** Initial matrix *)

(** C5, as the program has it: [transition_matrix] starts with nine rows of
    nine cells, every one of them the binary64 value of the literal [0.11]. *)
Theorem transition_matrix_uniform :
  shape transition_matrix /\
  Forall (Forall (fun x => x = 0.11%float)) transition_matrix.
Proof.
  split; [exact (proj1 Updater.transition_matrix_ok)|].
  repeat constructor.
Qed.

(** C5, as the claim words it, fails: the cell of row [VR] and column [VR]
    of the initial matrix is not one ninth, so not every cell is. *)
Lemma initial_cell_is_not_a_ninth :
  ~ (forall row column : States, row <> EM -> column <> EM ->
       cell transition_matrix row column = Ok (1 / 9)%float).
Proof.
  intros H. specialize (H VR VR ltac:(discriminate) ltac:(discriminate)).
  apply (f_equal (fun r => match r with
                           | Ok x => PrimFloat.eqb x 0.11%float
                           | Raise _ => false
                           end)) in H.
  vm_compute in H. discriminate H.
Qed.

(** ** Round evaluator *)

(** C7. [decide_round_result] answers 0 (a tie) on equal moves; on two
    distinct moves of [{0, 1, 2}] it answers 1 (the player wins) exactly
    when the opposite call answers -1 (the player loses), and exactly when
    the first move beats the second in the cycle 0 beats 2, 1 beats 0,
    2 beats 1; otherwise it answers -1. *)
Theorem decide_round_result_cycle (a b : Z) :
  0 <= a <= 2 -> 0 <= b <= 2 ->
  decide_round_result a a = Ok 0 /\
  (a <> b ->
   (decide_round_result a b = Ok 1 <-> decide_round_result b a = Ok (-1)) /\
   (decide_round_result a b = Ok 1 <->
    (a = 0 /\ b = 2) \/ (a = 1 /\ b = 0) \/ (a = 2 /\ b = 1)) /\
   (decide_round_result a b = Ok 1 \/ decide_round_result a b = Ok (-1))).
Proof.
  intros Ha Hb.
  assert (a = 0 \/ a = 1 \/ a = 2) as [-> | [-> | ->]] by lia;
    assert (b = 0 \/ b = 1 \/ b = 2) as [-> | [-> | ->]] by lia;
    (split; [reflexivity|]); intros Hab; try (exfalso; apply Hab; reflexivity);
    vm_compute; intuition (try discriminate; try lia).
Qed.

Lemma decide_round_result_cycle_witness :
  (0 <= 0 <= 2 /\ 0 <= 2 <= 2) /\
  decide_round_result 0 2 = Ok 1 /\ decide_round_result 2 0 = Ok (-1).
Proof.
  split; [lia|].
  destruct (decide_round_result_cycle 0 2 ltac:(lia) ltac:(lia)) as [_ H].
  destruct (H ltac:(discriminate)) as [H1 [H2 _]].
  assert (decide_round_result 0 2 = Ok 1) as W
      by (apply H2; left; split; reflexivity).
  split; [exact W|]. apply H1. exact W.
Defined.

(** C8, as the program has it: [decide_round_result] validates nothing. It
    raises exactly when the player's move is outside [{0, 1, 2}] and differs
    from the computer's move, and what it raises then is the [KeyError] of
    the lookup in [what_beats_what_dict]; equal moves are a tie whatever
    they are, and a player's move of [{0, 1, 2}] against any other value is
    scored as a win or a loss. *)
Theorem decide_round_result_raises_iff (player_choice computer_choice : Z) :
  (forall e, decide_round_result player_choice computer_choice = Raise e <->
             (player_choice <> computer_choice /\
              ~ 0 <= player_choice <= 2 /\ e = KeyError player_choice)) /\
  (player_choice = computer_choice ->
   decide_round_result player_choice computer_choice = Ok 0) /\
  (player_choice <> computer_choice -> 0 <= player_choice <= 2 ->
   decide_round_result player_choice computer_choice = Ok 1 \/
   decide_round_result player_choice computer_choice = Ok (-1)).
Proof.
  unfold decide_round_result, what_beats_what_dict. cbn [dict_getitem].
  destruct (Z.eqb_spec player_choice computer_choice) as [E|E].
  { repeat split; try tauto; try discriminate. }
  assert (forall w : Z,
            (if w =? computer_choice then @Ok Z 1 else Ok (-1)) = Ok 1 \/
            (if w =? computer_choice then @Ok Z 1 else Ok (-1)) = Ok (-1)) as Hw
      by (intros w; destruct (w =? computer_choice); auto).
  assert (forall (w : Z) e,
            (if w =? computer_choice then @Ok Z 1 else Ok (-1)) <> Raise e) as Hr
      by (intros w e; destruct (w =? computer_choice); discriminate).
  destruct (Z.eqb_spec player_choice 0) as [->|N0]; cbn [bind];
    [|destruct (Z.eqb_spec player_choice 1) as [->|N1]; cbn [bind];
      [|destruct (Z.eqb_spec player_choice 2) as [->|N2]; cbn [bind]]].
  1-3: split; [intros e; split; [intros H; now apply Hr in H|intros (_ & H & _); lia]|];
       split; [intros; contradiction|intros; apply Hw].
  split; [|split; [intros; contradiction|intros; lia]].
  intros e. split.
  - intros H. injection H as <-. repeat split; [exact E|lia].
  - intros (_ & _ & ->). reflexivity.
Qed.

(** C8, as the claim words it, fails: the moves 5 and 5 are outside the
    domain and the round is silently scored as a tie, and the move 7 of the
    computer against the player's 0 is silently scored as a loss. *)
Lemma out_of_domain_moves_are_scored :
  decide_round_result 5 5 = Ok 0 /\ decide_round_result 0 7 = Ok (-1) /\
  ~ (forall player_choice computer_choice : Z,
       ~ 0 <= player_choice <= 2 \/ ~ 0 <= computer_choice <= 2 ->
       exists e, decide_round_result player_choice computer_choice = Raise e).
Proof.
  split; [reflexivity|]. split; [reflexivity|].
  intros H. destruct (H 5 5 ltac:(lia)) as [e He]. discriminate He.
Qed.

(** ** Reinforcement *)

(** C1. When the guard passes for the row of a concrete previous state [p]
    and a concrete observed state [o], [reinforce] returns a matrix whose row
    of [p] holds, cell by cell, the old value less [decrease_value], and in
    the cell of [o] that difference plus [increase_value]; every other row is
    the one it was. The arithmetic is that of binary64, in the order the
    program applies it. *)
Theorem reinforce_applies_update (tm : matrix) (p o : States) (vector : list float) :
  p <> EM -> o <> EM ->
  Np.getitem tm (value p) = Ok vector ->
  guard vector o = Ok true ->
  exists tm' vector',
    reinforce tm p o = Ok tm' /\
    Np.getitem tm' (value p) = Ok vector' /\
    length vector' = length vector /\
    (forall c x, c <> EM -> Np.getitem vector (value c) = Ok x ->
       Np.getitem vector' (value c) =
       Ok (if States_eqb c o then (x - decrease_value + increase_value)%float
           else (x - decrease_value)%float)) /\
    (forall q, q <> EM -> q <> p ->
       Np.getitem tm' (value q) = Np.getitem tm (value q)).
Proof.
  intros Hp Ho Ev Hg. unfold reinforce.
  rewrite (NpFacts.States_eqb_EM p Hp). cbn [negb]. rewrite Ev. cbn [bind].
  rewrite Hg.
  destruct (Updater.guard_true _ _ Hg) as (c & Ec & _).
  destruct (Updater.bump_spec _ _ _ Ec) as (k & Ek & Hk & ->). cbn [bind].
  pose proof (NpFacts.value_concrete p Hp) as Hvp.
  pose proof (NpFacts.value_concrete o Ho) as Hvo.
  destruct (Updater.concrete_lt_length _ _ _ Hp Ev) as [Hnp Hlp].
  destruct (Updater.concrete_lt_length _ _ _ Ho Ec) as [Hno Hlo].
  rewrite NpFacts.index_nonneg in Ek by lia.
  destruct (Z.ltb_spec (value o) (Z.of_nat (length vector))); [|lia].
  injection Ek as <-.
  rewrite NpFacts.setitem_nonneg by lia.
  destruct (Z.ltb_spec (value p) (Z.of_nat (length tm))); [|lia].
  eexists. eexists. split; [reflexivity|].
  split; [|split; [|split]].
  - rewrite NpFacts.getitem_nonneg by lia.
    rewrite NpFacts.nth_error_set_nth_eq by lia. reflexivity.
  - now rewrite NpFacts.length_set_nth, length_map.
  - intros c' x Hc' Ex.
    pose proof (NpFacts.value_concrete c' Hc') as Hvc.
    destruct (Updater.concrete_lt_length _ _ _ Hc' Ex) as [Hnc Hlc].
    rewrite NpFacts.getitem_nonneg by lia.
    destruct (States_eqb c' o) eqn:Eco.
    + apply NpFacts.States_eqb_eq in Eco. subst c'.
      rewrite NpFacts.nth_error_set_nth_eq by (rewrite length_map; lia).
      rewrite Hno in Hnc. injection Hnc as <-. reflexivity.
    + rewrite NpFacts.nth_error_set_nth_ne.
      * rewrite nth_error_map, Hnc. reflexivity.
      * intros E. apply Z2Nat.inj in E; try lia.
        symmetry in E. apply NpFacts.value_inj in E. subst c'.
        unfold States_eqb in Eco. rewrite Z.eqb_refl in Eco. discriminate Eco.
  - intros q Hq Hqp.
    pose proof (NpFacts.value_concrete q Hq) as Hvq.
    rewrite !NpFacts.getitem_nonneg by lia.
    rewrite NpFacts.nth_error_set_nth_ne; [reflexivity|].
    intros E. apply Z2Nat.inj in E; try lia.
    symmetry in E. apply NpFacts.value_inj in E. contradiction.
Qed.

Lemma reinforce_applies_update_witness :
  (VR <> EM /\ VP <> EM /\
   Np.getitem transition_matrix (value VR) =
   Ok [0.11; 0.11; 0.11; 0.11; 0.11; 0.11; 0.11; 0.11; 0.11]%float /\
   guard [0.11; 0.11; 0.11; 0.11; 0.11; 0.11; 0.11; 0.11; 0.11]%float VP = Ok true) /\
  exists tm' vector',
    reinforce transition_matrix VR VP = Ok tm' /\
    Np.getitem tm' (value VR) = Ok vector' /\
    Np.getitem vector' (value VP) = Ok (0.11 - decrease_value + increase_value)%float /\
    Np.getitem vector' (value TS) = Ok (0.11 - decrease_value)%float.
Proof.
  assert (VR <> EM) as H1 by discriminate.
  assert (VP <> EM) as H2 by discriminate.
  assert (TS <> EM) as H3 by discriminate.
  assert (Np.getitem transition_matrix (value VR) =
          Ok [0.11; 0.11; 0.11; 0.11; 0.11; 0.11; 0.11; 0.11; 0.11]%float) as H4
      by reflexivity.
  assert (guard [0.11; 0.11; 0.11; 0.11; 0.11; 0.11; 0.11; 0.11; 0.11]%float VP
          = Ok true) as H5 by (vm_compute; reflexivity).
  split; [auto|].
  destruct (reinforce_applies_update transition_matrix VR VP _ H1 H2 H4 H5)
    as (tm' & vector' & E & Ev & _ & Hc & _).
  exists tm', vector'. split; [exact E|]. split; [exact Ev|].
  split; [exact (Hc VP _ H2 eq_refl)|exact (Hc TS _ H3 eq_refl)].
Defined.

(** C6. [reinforce] returns the matrix it was given when the previous state
    is [EM], when the observed cell of the row is not at most [upper_limit],
    and when some entry of the row is not at least [bottom_limit]: one such
    entry keeps the whole row, and with it the whole matrix, as it was. *)
Theorem reinforce_frozen (tm : matrix) (p o : States) :
  p = EM \/
  (exists vector c,
     Np.getitem tm (value p) = Ok vector /\
     Np.getitem vector (value o) = Ok c /\
     ((c <=? upper_limit)%float = false \/
      exists x, In x vector /\ (bottom_limit <=? x)%float = false)) ->
  reinforce tm p o = Ok tm.
Proof.
  intros [->|(vector & c & Ev & Ec & H)]; [reflexivity|].
  unfold reinforce. destruct (States_eqb p EM); cbn [negb]; [reflexivity|].
  rewrite Ev. cbn [bind].
  destruct (Updater.guard_total _ _ _ Ec) as ([|] & Eg); rewrite Eg; cbn [bind];
    [|reflexivity].
  exfalso. destruct (Updater.guard_true _ _ Eg) as (c' & Ec' & Hcu & Hb).
  rewrite Ec in Ec'. injection Ec' as <-.
  destruct H as [H|(x & Hx & H)].
  - rewrite H in Hcu. discriminate Hcu.
  - rewrite Forall_forall in Hb. rewrite (Hb x Hx) in H. discriminate H.
Qed.

Lemma reinforce_frozen_witness :
  exists tm,
    run (repeat (VR, VR) 9) transition_matrix = Ok tm /\
    (exists vector c,
       Np.getitem tm (value VR) = Ok vector /\
       Np.getitem vector (value VR) = Ok c /\
       ((c <=? upper_limit)%float = false \/
        exists x, In x vector /\ (bottom_limit <=? x)%float = false)) /\
    reinforce tm VR VR = Ok tm.
Proof.
  eexists. split; [vm_compute; reflexivity|].
  match goal with
  | |- ?P /\ _ => assert P as H
  end.
  { eexists. eexists. split; [reflexivity|]. split; [reflexivity|].
    left. vm_compute. reflexivity. }
  split; [exact H|]. apply reinforce_frozen. right. exact H.
Defined.

(** ** Bounds of the cells *)

(** C3. Whatever the calls of [reinforce] made from the initial matrix, the
    run raises nothing and ends in a matrix of nine rows of nine cells, each
    of which is at least 0 and at most 1 in binary64. *)
Theorem reachable_cells_in_unit_interval (calls : list (States * States)) :
  exists tm,
    run calls transition_matrix = Ok tm /\
    shape tm /\
    Forall (Forall (fun x => (0 <=? x)%float = true /\ (x <=? 1)%float = true)) tm.
Proof.
  destruct Updater.transition_matrix_ok as [Hs Hu].
  exact (Updater.run_keeps calls transition_matrix Hs Hu).
Qed.

(** C4, as the program has it: one more call of [reinforce] on a matrix
    the program can hold raises nothing and leaves every cell at least 0 and
    at most 1. The guard compares the row with [bottom_limit] before
    [decrease_value] is subtracted, so the bound below is 0 afterwards. *)
Theorem reinforce_keeps_unit_interval (tm : matrix) (p o : States) :
  reachable tm ->
  exists tm',
    reinforce tm p o = Ok tm' /\
    reachable tm' /\
    Forall (Forall (fun x => (0 <=? x)%float = true /\ (x <=? 1)%float = true)) tm'.
Proof.
  intros Hr. destruct (Updater.reachable_ok tm Hr) as [Hs Hu].
  destruct (Updater.reinforce_keeps tm p o Hs Hu) as (tm' & E & _ & Hu').
  exists tm'. split; [exact E|]. split; [|exact Hu'].
  destruct Hr as [calls Hrun]. exists (calls ++ [(p, o)]).
  rewrite Updater.run_app, Hrun. cbn [bind run]. rewrite E. reflexivity.
Qed.

Lemma reinforce_keeps_unit_interval_witness :
  reachable transition_matrix /\
  exists tm',
    reinforce transition_matrix VR VP = Ok tm' /\
    reachable tm' /\
    Forall (Forall (fun x => (0 <=? x)%float = true /\ (x <=? 1)%float = true)) tm'.
Proof.
  assert (reachable transition_matrix) as H by (exists []; reflexivity).
  split; [exact H|]. exact (reinforce_keeps_unit_interval transition_matrix VR VP H).
Defined.

(** C4, as the claim words it, fails: after [eleven_rounds] the cell of row
    [VR] and column [TS] is below [bottom_limit]. *)
Lemma cell_below_bottom_limit :
  exists tm x,
    reachable tm /\ run eleven_rounds transition_matrix = Ok tm /\
    cell tm VR TS = Ok x /\
    (bottom_limit <=? x)%float = false /\ (x <? bottom_limit)%float = true.
Proof.
  eexists. eexists.
  split; [exists eleven_rounds; vm_compute; reflexivity|].
  split; [vm_compute; reflexivity|].
  split; [vm_compute; reflexivity|].
  split; vm_compute; reflexivity.
Qed.

(** ** Decision engine *)

(** C2. For a concrete previous state whose row is [v0 .. v8], let
    [bucket m] be the sum of the three weights of the states with move [m]
    ([v_m + v_(m+3) + v_(m+6)], added in this order). [computer_move] picks
    a [predicted] move no bucket is greater than, every bucket of a lower
    index being strictly smaller (when no bucket is NaN: a maximal bucket of
    the lowest index), and returns the one move [c] that beats [predicted]
    by [what_beats_what_dict], in the cycle 0 beats 2, 1 beats 0, 2 beats 1.
    On three equal buckets [predicted] is 0 and the move returned is 1. *)
Theorem computer_move_counters_first_max
    (randint : Z) (tm : matrix) (s : States) (v0 v1 v2 v3 v4 v5 v6 v7 v8 : float) :
  s <> EM ->
  Np.getitem tm (value s) = Ok [v0; v1; v2; v3; v4; v5; v6; v7; v8] ->
  let bucket := fun m : nat =>
    nth m [v0 + v3 + v6; v1 + v4 + v7; v2 + v5 + v8]%float nan in
  exists (predicted : nat) (c : Z),
    (predicted < 3)%nat /\
    (forall m, (m < 3)%nat -> (bucket predicted <? bucket m)%float = false) /\
    (forall m, (m < predicted)%nat -> (bucket predicted <=? bucket m)%float = false) /\
    ((forall m, (m < 3)%nat -> is_nan (bucket m) = false) ->
     forall m, (m < 3)%nat ->
       (bucket m <=? bucket predicted)%float = true /\
       ((m < predicted)%nat -> (bucket m <? bucket predicted)%float = true)) /\
    computer_move randint tm s = Ok c /\
    dict_getitem what_beats_what_dict c = Ok (Z.of_nat predicted) /\
    ((c = 0 /\ predicted = 2%nat) \/ (c = 1 /\ predicted = 0%nat) \/
     (c = 2 /\ predicted = 1%nat)) /\
    (forall c', dict_getitem what_beats_what_dict c' = Ok (Z.of_nat predicted) ->
                c' = c) /\
    ((bucket 1%nat =? bucket 0%nat)%float = true ->
     (bucket 2%nat =? bucket 0%nat)%float = true ->
     predicted = 0%nat /\ c = 1).
Proof.
  intros Hs Hrow bucket.
  destruct (Argmax.argmax_three (bucket 0%nat) (bucket 1%nat) (bucket 2%nat))
    as (p & Ep & Hp & Hmax & Hfirst & Htie).
  assert (computer_move randint tm s =
          dict_getitem counter_plays (Z.of_nat p)) as Ec.
  { unfold computer_move. rewrite (NpFacts.States_eqb_EM s Hs), Hrow.
    cbn [bind].
    assert (decision_vector [v0; v1; v2; v3; v4; v5; v6; v7; v8] =
            Ok [v0 + v3 + v6; v1 + v4 + v7; v2 + v5 + v8]%float) as ->
        by reflexivity.
    cbn [bind].
    change (Np.argmax [bucket 0%nat; bucket 1%nat; bucket 2%nat]) with
      (Np.argmax [v0 + v3 + v6; v1 + v4 + v7; v2 + v5 + v8]%float) in Ep.
    rewrite Ep. reflexivity. }
  change [bucket 0%nat; bucket 1%nat; bucket 2%nat] with
    [v0 + v3 + v6; v1 + v4 + v7; v2 + v5 + v8]%float in Hmax, Hfirst.
  fold bucket in Hmax, Hfirst.
  assert (forall c' q, (q < 3)%nat ->
            dict_getitem what_beats_what_dict c' = Ok (Z.of_nat q) ->
            c' = (Z.of_nat q + 1) mod 3) as Huniq.
  { intros c' q Hq. unfold what_beats_what_dict. cbn [dict_getitem].
    destruct (Z.eqb_spec c' 0) as [->|?]; [|destruct (Z.eqb_spec c' 1) as [->|?];
      [|destruct (Z.eqb_spec c' 2) as [->|?]]];
      intros H; try discriminate H; injection H as H;
      destruct q as [|[|[|q]]]; try lia; try discriminate H; reflexivity. }
  exists p, ((Z.of_nat p + 1) mod 3).
  split; [exact Hp|]. split; [exact Hmax|]. split; [exact Hfirst|].
  split; [|split; [|split; [|split; [|split]]]].
  - intros Hnan m Hm. split.
    + exact (Argmax.not_ltb_leb _ _ (Hnan p Hp) (Hnan m Hm) (Hmax m Hm)).
    + intros Hmp.
      exact (Argmax.not_leb_ltb _ _ (Hnan p Hp) (Hnan m Hm) (Hfirst m Hmp)).
  - rewrite Ec. destruct p as [|[|[|p]]]; try lia; reflexivity.
  - destruct p as [|[|[|p]]]; try lia; reflexivity.
  - destruct p as [|[|[|p]]]; try lia; cbn; auto.
  - intros c' H. exact (Huniq c' p Hp H).
  - intros E1 E2. apply Argmax.eqb_leb in E1, E2.
    rewrite (Htie E1 E2). split; reflexivity.
Qed.

Lemma computer_move_counters_first_max_witness :
  (VP <> EM /\
   Np.getitem transition_matrix (value VP) =
   Ok [0.11; 0.11; 0.11; 0.11; 0.11; 0.11; 0.11; 0.11; 0.11]%float) /\
  exists predicted : nat,
    predicted = 0%nat /\ computer_move 2 transition_matrix VP = Ok 1.
Proof.
  assert (VP <> EM) as H1 by discriminate.
  assert (Np.getitem transition_matrix (value VP) =
          Ok [0.11; 0.11; 0.11; 0.11; 0.11; 0.11; 0.11; 0.11; 0.11]%float) as H2
      by reflexivity.
  split; [auto|].
  destruct (computer_move_counters_first_max 2 transition_matrix VP
              _ _ _ _ _ _ _ _ _ H1 H2)
    as (predicted & c & _ & _ & _ & _ & Ec & _ & _ & _ & Htie).
  destruct (Htie eq_refl eq_refl) as [-> ->].
  exists 0%nat. split; [reflexivity|exact Ec].
Defined.

(** C9. For a concrete previous state, [computer_move] is a function of the
    row of that state alone: on two matrices with the same row there it
    returns the same result, whatever the other rows and whatever would have
    been drawn at random. It returns a move and no matrix: it writes none. *)
Theorem computer_move_reads_one_row (r1 r2 : Z) (tm1 tm2 : matrix) (s : States) :
  s <> EM ->
  Np.getitem tm1 (value s) = Np.getitem tm2 (value s) ->
  computer_move r1 tm1 s = computer_move r2 tm2 s.
Proof.
  intros Hs Hrow. unfold computer_move.
  rewrite (NpFacts.States_eqb_EM s Hs), Hrow. reflexivity.
Qed.

Lemma computer_move_reads_one_row_witness :
  (VP <> EM /\
   Np.getitem transition_matrix (value VP) =
   Np.getitem [[1; 0; 0]; [0.11; 0.11; 0.11; 0.11; 0.11; 0.11; 0.11; 0.11; 0.11]]%float
     (value VP)) /\
  computer_move 0 transition_matrix VP =
  computer_move 2 [[1; 0; 0]; [0.11; 0.11; 0.11; 0.11; 0.11; 0.11; 0.11; 0.11; 0.11]]%float VP.
Proof.
  assert (VP <> EM) as H1 by discriminate.
  assert (Np.getitem transition_matrix (value VP) =
          Np.getitem [[1; 0; 0]; [0.11; 0.11; 0.11; 0.11; 0.11; 0.11; 0.11; 0.11; 0.11]]%float
            (value VP)) as H2 by reflexivity.
  split; [auto|]. exact (computer_move_reads_one_row 0 2 _ _ VP H1 H2).
Defined.

(** ** History state *)

(** C10. On a move of [{0, 1, 2}] and a matrix of nine rows of nine cells,
    [update_probabilities] raises nothing and returns the state whose value
    is the move itself after a win (result 1), the move plus 3 after a loss
    (result -1) and the move plus 6 otherwise: never [EM], and the same
    whatever the previous state and the cells of the matrix, so also when
    the matrix is returned unchanged. *)
Theorem update_probabilities_state
    (player_choice round_result : Z) (last_move_outcome : States) (tm : matrix) :
  0 <= player_choice <= 2 -> shape tm ->
  exists current_state tm',
    update_probabilities player_choice round_result last_move_outcome tm
    = Ok (current_state, tm') /\
    current_state <> EM /\
    value current_state =
    player_choice + (if round_result =? 1 then 0
                     else if round_result =? -1 then 3 else 6) /\
    reinforce tm last_move_outcome current_state = Ok tm'.
Proof.
  intros Hm Hs. unfold update_probabilities, current_state_of.
  assert (exists s, States_of_value
                      (if round_result =? 1 then player_choice
                       else if round_result =? -1 then player_choice + 3
                       else player_choice + 6) = Ok s /\
                    s <> EM /\
                    value s = player_choice +
                              (if round_result =? 1 then 0
                               else if round_result =? -1 then 3 else 6))
    as (s & Es & Hne & Hv).
  { assert (player_choice = 0 \/ player_choice = 1 \/ player_choice = 2)
      as [-> | [-> | ->]] by lia;
      destruct (round_result =? 1); [|destruct (round_result =? -1)| |
                                     destruct (round_result =? -1)| |
                                     destruct (round_result =? -1)];
      eexists; (split; [reflexivity|split; [discriminate|reflexivity]]). }
  replace (if round_result =? 1 then States_of_value player_choice
           else if round_result =? -1 then States_of_value (player_choice + 3)
           else States_of_value (player_choice + 6))
    with (States_of_value
            (if round_result =? 1 then player_choice
             else if round_result =? -1 then player_choice + 3
             else player_choice + 6))
    by (destruct (round_result =? 1); [|destruct (round_result =? -1)]; reflexivity).
  rewrite Es. cbn [bind].
  destruct (Updater.reinforce_total tm last_move_outcome s Hs) as (tm' & E).
  rewrite E. cbn [bind]. exists s, tm'. auto.
Qed.

Lemma update_probabilities_state_witness :
  (0 <= 1 <= 2 /\ shape transition_matrix) /\
  exists tm',
    update_probabilities 1 (-1) EM transition_matrix = Ok (LP, tm') /\
    reinforce transition_matrix EM LP = Ok tm'.
Proof.
  assert (0 <= 1 <= 2) as H1 by lia.
  pose proof (proj1 Updater.transition_matrix_ok) as H2.
  split; [auto|].
  destruct (update_probabilities_state 1 (-1) EM transition_matrix H1 H2)
    as (s & tm' & E & _ & Hv & Hr).
  exists tm'. apply NpFacts.value_inj with (t := LP) in Hv.
  subst s. auto.
Defined.

(** * Further properties of the model *)

(** ** The rows a call leaves alone *)

Module Frame.
Import NpFacts.

Lemma States_of_value_value (s : States) : States_of_value (value s) = Ok s.
Proof. destruct s; reflexivity. Qed.

Lemma States_of_value_inv (v : Z) (s : States) :
  States_of_value v = Ok s -> value s = v.
Proof.
  unfold States_of_value.
  destruct (find (fun s => value s =? v) all_States) as [t|] eqn:E; [|discriminate].
  intros [= <-]. apply find_some in E. destruct E as [_ E].
  now apply Z.eqb_eq in E.
Qed.

Lemma States_of_value_range (v : Z) :
  -1 <= v <= 8 -> exists s, States_of_value v = Ok s /\ value s = v.
Proof.
  intros H.
  assert (v = -1 \/ v = 0 \/ v = 1 \/ v = 2 \/ v = 3 \/ v = 4 \/ v = 5 \/
          v = 6 \/ v = 7 \/ v = 8) as Hv by lia.
  repeat (destruct Hv as [-> | Hv]; [eexists; split; reflexivity|]).
  subst v. eexists; split; reflexivity.
Qed.

Lemma States_of_value_outside (v : Z) :
  v < -1 \/ 8 < v -> States_of_value v = Raise ValueError.
Proof.
  intros H. destruct (States_of_value v) as [s|e] eqn:E.
  - apply States_of_value_inv in E. pose proof (value_range s). lia.
  - unfold States_of_value in E.
    destruct (find _ all_States); [discriminate|]. now injection E as <-.
Qed.

(** A call changes no row but the one of the previous state. *)
Lemma reinforce_other_rows (tm tm' : matrix) (p o q : States) :
  reinforce tm p o = Ok tm' -> q <> EM -> q <> p ->
  Np.getitem tm' (value q) = Np.getitem tm (value q).
Proof.
  unfold reinforce. intros H Hq Hqp.
  destruct (States_eqb p EM) eqn:Ep; cbn [negb] in H; [now injection H as <-|].
  assert (p <> EM) as Hp by (intros ->; discriminate Ep).
  destruct (Np.getitem tm (value p)) as [vector|e]; cbn [bind] in H; [|discriminate].
  destruct (guard vector o) as [[|]|e]; cbn [bind] in H; try discriminate;
    [|now injection H as <-].
  destruct (bump vector o) as [vector'|e]; cbn [bind] in H; [|discriminate].
  pose proof (value_concrete p Hp) as Hvp.
  pose proof (value_concrete q Hq) as Hvq.
  rewrite setitem_nonneg in H by lia.
  destruct (value p <? Z.of_nat (length tm)); [|discriminate].
  injection H as <-.
  rewrite !getitem_nonneg by lia.
  rewrite nth_error_set_nth_ne; [reflexivity|].
  intros E. apply Z2Nat.inj in E; try lia.
  symmetry in E. apply value_inj in E. contradiction.
Qed.

(** A row with an entry that is not at least [bottom_limit] fails the guard. *)
Lemma guard_low (vector : list float) (o : States) (g : bool) (x : float) :
  guard vector o = Ok g -> In x vector -> (bottom_limit <=? x)%float = false ->
  g = false.
Proof.
  intros Hg Hx Hlow. destruct g; [|reflexivity].
  destruct (Updater.guard_true _ _ Hg) as (_ & _ & _ & Hb).
  rewrite Forall_forall in Hb. rewrite (Hb x Hx) in Hlow. discriminate Hlow.
Qed.

Lemma reinforce_low_row (tm tm' : matrix) (p o q : States)
    (vector : list float) (x : float) :
  reinforce tm p o = Ok tm' -> q <> EM ->
  Np.getitem tm (value q) = Ok vector ->
  In x vector -> (bottom_limit <=? x)%float = false ->
  Np.getitem tm' (value q) = Ok vector.
Proof.
  intros H Hq Ev Hx Hlow.
  destruct (States_eqb q p) eqn:Eqp.
  - apply States_eqb_eq in Eqp. subst q.
    unfold reinforce in H. rewrite (States_eqb_EM p Hq) in H. cbn [negb] in H.
    rewrite Ev in H. cbn [bind] in H.
    destruct (guard vector o) as [g|e] eqn:Eg; cbn [bind] in H; [|discriminate].
    rewrite (guard_low _ _ _ _ Eg Hx Hlow) in H. injection H as <-. exact Ev.
  - rewrite (reinforce_other_rows _ _ _ _ _ H Hq); [exact Ev|].
    intros ->. unfold States_eqb in Eqp. rewrite Z.eqb_refl in Eqp. discriminate Eqp.
Qed.

(** In a row of nine cells the index -1 of [EM] is the index 8 of [TS]. *)
Lemma getitem_EM_TS {A : Type} (a : list A) :
  length a = 9%nat -> Np.getitem a (value EM) = Np.getitem a (value TS).
Proof. intros H. unfold Np.getitem. rewrite H. reflexivity. Qed.

(** Every call returns, and keeps nine rows of nine cells. *)
Lemma reinforce_shape (tm : matrix) (p o : States) :
  shape tm -> exists tm', reinforce tm p o = Ok tm' /\ shape tm'.
Proof.
  intros Hshape. pose proof Hshape as [Hlen Hrows]. unfold reinforce.
  destruct (States_eqb p EM) eqn:Ep; cbn [negb]; [now exists tm|].
  assert (p <> EM) as Hp by (intros ->; discriminate Ep).
  pose proof (value_concrete p Hp) as Hvp.
  destruct (getitem_total tm (value p) ltac:(lia)) as (vector & Ev).
  rewrite Ev. cbn [bind].
  pose proof (getitem_In _ _ _ Ev) as Hin.
  assert (length vector = 9%nat) as Hlv by (eapply Forall_forall in Hrows; eassumption).
  pose proof (value_range o) as Hvo.
  destruct (getitem_total vector (value o) ltac:(lia)) as (c & Ec).
  destruct (Updater.guard_total _ _ _ Ec) as ([|] & Eg); rewrite Eg; cbn [bind];
    [|now exists tm].
  destruct (Updater.bump_spec _ _ _ Ec) as (k & Ek & Hk & ->). cbn [bind].
  rewrite setitem_nonneg by lia.
  destruct (Z.ltb_spec (value p) (Z.of_nat (length tm))); [|lia].
  eexists. split; [reflexivity|]. split.
  - now rewrite length_set_nth.
  - apply Forall_set_nth; [exact Hrows|].
    now rewrite length_set_nth, length_map.
Qed.

(** [computer_move] on a matrix of nine rows of nine cells. *)
Lemma computer_move_range (randint : Z) (tm : matrix) (s : States) :
  shape tm ->
  exists c,
    computer_move randint tm s = Ok c /\
    (s = EM -> c = randint) /\
    (s <> EM -> 0 <= c <= 2).
Proof.
  intros [Hlen Hrows]. unfold computer_move.
  destruct (States_eqb s EM) eqn:Es.
  - exists randint. split; [reflexivity|]. split; [reflexivity|].
    intros H. apply States_eqb_eq in Es. contradiction.
  - assert (s <> EM) as Hs by (intros ->; discriminate Es).
    pose proof (value_concrete s Hs) as Hv.
    destruct (getitem_total tm (value s) ltac:(lia)) as (vector & Ev).
    rewrite Ev. cbn [bind].
    assert (length vector = 9%nat) as Hl.
    { rewrite Forall_forall in Hrows. apply Hrows.
      eapply getitem_In; eassumption. }
    destruct vector as [|v0 [|v1 [|v2 [|v3 [|v4 [|v5 [|v6 [|v7 [|v8 [|? ?]]]]]]]]]];
      try discriminate Hl.
    assert (decision_vector [v0; v1; v2; v3; v4; v5; v6; v7; v8] =
            Ok [v0 + v3 + v6; v1 + v4 + v7; v2 + v5 + v8]%float) as ->
        by reflexivity.
    cbn [bind].
    destruct (Argmax.argmax_three (v0 + v3 + v6) (v1 + v4 + v7) (v2 + v5 + v8))
      as (p & -> & Hp & _).
    cbn [bind].
    destruct p as [|[|[|p]]]; try lia; eexists; (split; [reflexivity|]);
      split; intros; (contradiction || lia).
Qed.

End Frame.

(** ** Cells that are not observed *)

Module Drain.
Import Binary64 IEEE.

Lemma leb_refl_in_unit (x : float) : in_unit x -> (x <=? x)%float = true.
Proof.
  intros [H _]. apply Bounds.leb_ford_inv in H. destruct H as (a & b & _ & E & _).
  rewrite leb_ford, E. apply Z.leb_refl.
Qed.

(** The subtraction of [decrease_value] never rounds above its operand. *)
Lemma sub_le_self (x : float) :
  (bottom_limit <=? x)%float = true -> (x <=? 1)%float = true ->
  (x - decrease_value <=? x)%float = true.
Proof.
  intros Hb H1.
  apply Bounds.leb_ford_inv in Hb. destruct Hb as (b & a & Eb & Ea & Hba).
  apply Bounds.leb_ford_inv in H1. destruct H1 as (a' & o & Ea' & Eo & Hao).
  rewrite Ea in Ea'. apply some_eq in Ea'. subst a'.
  rewrite Bounds.ford_bottom_limit in Eb. apply some_eq in Eb. subst b.
  pose proof Bounds.ford_one as E1. rewrite Eo in E1. apply some_eq in E1. subst o.
  pose proof Bounds.big_unit as Hbig. pose proof (pow2_pos 1015 ltac:(lia)) as Pu.
  pose proof Bounds.ford_decrease_value as Edec.
  set (u := 2 ^ 1015) in *. clearbody u.
  destruct (fsub_ub x decrease_value x a _ a Ea Edec Ea) as (v & Ev & Hv); try lia.
  rewrite leb_ford, Ev, Ea. apply Z.leb_le. lia.
Qed.

End Drain.

(** ** The terminal and the game loop *)

Module Terminal.
Import NpFacts.

Lemma player_move_lines_accepts
    (skipped : list String.string) (line : String.string)
    (rest out : list String.string) (k : nat) :
  forallb (fun l => negb (accepted l)) skipped = true -> accepted line = true ->
  player_move_lines (skipped ++ line :: rest) out k =
  Done (move_of_line line,
        {| stdin := rest;
           stdout := out ++ flat_map (fun _ => [prompt; wrong]) skipped ++ [prompt];
           draws := k |}).
Proof.
  intros Hs Hl. revert out.
  induction skipped as [|l skipped IH]; intros out; cbn [app player_move_lines].
  - unfold accepted in Hl. unfold move_of_line. cbn [flat_map app].
    destruct (String.eqb line "1"); [reflexivity|].
    destruct (String.eqb line "2"); [reflexivity|].
    destruct (String.eqb line "3"); [reflexivity|discriminate Hl].
  - cbn [forallb] in Hs. apply andb_true_iff in Hs. destruct Hs as [Hl' Hs].
    unfold accepted in Hl'.
    destruct (String.eqb l "1"); [discriminate Hl'|].
    destruct (String.eqb l "2"); [discriminate Hl'|].
    destruct (String.eqb l "3"); [discriminate Hl'|].
    rewrite (IH Hs). cbn [flat_map]. unfold wrong.
    rewrite <- !app_assoc. reflexivity.
Qed.

Lemma player_move_lines_eof (lines out : list String.string) (k : nat) :
  forallb (fun l => negb (accepted l)) lines = true ->
  player_move_lines lines out k = EOFError.
Proof.
  revert out. induction lines as [|l lines IH]; intros out Hs;
    cbn [player_move_lines]; [reflexivity|].
  cbn [forallb] in Hs. apply andb_true_iff in Hs. destruct Hs as [Hl Hs].
  unfold accepted in Hl.
  destruct (String.eqb l "1"); [discriminate Hl|].
  destruct (String.eqb l "2"); [discriminate Hl|].
  destruct (String.eqb l "3"); [discriminate Hl|].
  apply IH. exact Hs.
Qed.

(** Either no line is accepted, or there is a first accepted line. *)
Lemma first_accepted (lines : list String.string) :
  forallb (fun l => negb (accepted l)) lines = true \/
  exists skipped line rest,
    lines = skipped ++ line :: rest /\
    forallb (fun l => negb (accepted l)) skipped = true /\ accepted line = true.
Proof.
  induction lines as [|l lines IH]; [left; reflexivity|].
  destruct (accepted l) eqn:El.
  - right. exists [], l, lines. auto.
  - destruct IH as [IH|(skipped & line & rest & -> & Hs & Hl)].
    + left. cbn [forallb]. now rewrite El, IH.
    + right. exists (l :: skipped), line, rest. repeat split; [|exact Hl].
      cbn [forallb]. now rewrite El, Hs.
Qed.

Lemma accepted_count_none (lines : list String.string) :
  forallb (fun l => negb (accepted l)) lines = true -> accepted_count lines = 0.
Proof.
  unfold accepted_count. induction lines as [|l lines IH]; [reflexivity|].
  cbn [forallb filter]. intros H. apply andb_true_iff in H. destruct H as [Hl H].
  apply negb_true_iff in Hl. rewrite Hl. apply IH, H.
Qed.

Lemma accepted_count_first
    (skipped : list String.string) (line : String.string) (rest : list String.string) :
  forallb (fun l => negb (accepted l)) skipped = true -> accepted line = true ->
  accepted_count (skipped ++ line :: rest) = accepted_count rest + 1.
Proof.
  intros Hs Hl. apply accepted_count_none in Hs. unfold accepted_count in *.
  rewrite filter_app, length_app. cbn [filter]. rewrite Hl. cbn [length]. lia.
Qed.

Lemma accepted_count_nonneg (lines : list String.string) : 0 <= accepted_count lines.
Proof. unfold accepted_count. lia. Qed.

Lemma move_of_line_range (line : String.string) : 0 <= move_of_line line <= 2.
Proof.
  unfold move_of_line.
  destruct (String.eqb line "1"); [lia|]. destruct (String.eqb line "2"); lia.
Qed.

(** [update_probabilities] on a move of [{0, 1, 2}]. *)
Lemma update_probabilities_ok
    (player_choice round_result : Z) (last : States) (tm : matrix) :
  0 <= player_choice <= 2 -> shape tm ->
  exists s tm',
    update_probabilities player_choice round_result last tm = Ok (s, tm') /\
    s <> EM /\ shape tm' /\ reinforce tm last s = Ok tm'.
Proof.
  intros Hm Hs.
  set (v := player_choice + (if round_result =? 1 then 0
                             else if round_result =? -1 then 3 else 6)).
  assert (current_state_of player_choice round_result = States_of_value v) as E.
  { unfold current_state_of, v.
    destruct (round_result =? 1); [now rewrite Z.add_0_r|].
    destruct (round_result =? -1); reflexivity. }
  assert (0 <= v <= 8) as Hv
      by (unfold v; destruct (round_result =? 1);
          [|destruct (round_result =? -1)]; lia).
  destruct (Frame.States_of_value_range v ltac:(lia)) as (s & Es & Hvs).
  unfold update_probabilities. rewrite E, Es. cbn [bind].
  destruct (Frame.reinforce_shape tm last s Hs) as (tm' & E' & Hs').
  rewrite E'. cbn [bind]. exists s, tm'.
  split; [reflexivity|]. split; [|split; assumption].
  intros ->. cbn in Hvs. lia.
Qed.

(** One iteration of the loop. *)
Lemma play_round_spec (randint : nat -> Z) (g : Game.state) (w : world) :
  (forall k, 0 <= randint k <= 2) -> shape (Game.tm g) ->
  (play_round randint g w = EOFError /\ accepted_count (stdin w) = 0) \/
  exists g' w' r,
    play_round randint g w = Done (g', w') /\
    Game.round_counter g' = Game.round_counter g + 1 /\
    Game.score g' = Game.score g + r /\ -1 <= r <= 1 /\
    Game.last_move_outcome g' <> EM /\
    shape (Game.tm g') /\
    reinforce (Game.tm g) (Game.last_move_outcome g) (Game.last_move_outcome g')
    = Ok (Game.tm g') /\
    draws w' = (draws w + (if States_eqb (Game.last_move_outcome g) EM then 1 else 0))%nat /\
    accepted_count (stdin w) = accepted_count (stdin w') + 1.
Proof.
  intros Hrand Hs. unfold play_round.
  set (w1 := print _ w).
  assert (stdin w1 = stdin w) as Ein by reflexivity.
  assert (draws w1 = draws w) as Edr by reflexivity.
  clearbody w1. unfold player_move.
  destruct (first_accepted (stdin w1)) as [Hnone|(skipped & line & rest & E & Hsk & Hl)].
  { left. rewrite (player_move_lines_eof _ _ _ Hnone). split; [reflexivity|].
    rewrite <- Ein. now apply accepted_count_none. }
  right. rewrite E, (player_move_lines_accepts _ _ _ _ _ Hsk Hl).
  cbn [and_then].
  pose proof (move_of_line_range line) as Hm.
  set (pc := move_of_line line) in *. clearbody pc.
  set (w2 := {| stdin := rest |}).
  unfold computer_move_call.
  destruct (Frame.computer_move_range (randint (draws w2)) (Game.tm g)
              (Game.last_move_outcome g) Hs) as (c & Ec & HcE & HcN).
  rewrite Ec. cbn [lift and_then].
  assert (0 <= c <= 2) as Hc.
  { destruct (States_eqb (Game.last_move_outcome g) EM) eqn:El.
    - apply States_eqb_eq in El. rewrite (HcE El). apply Hrand.
    - apply HcN. intros El'. rewrite El' in El. discriminate El. }
  set (w3 := if States_eqb (Game.last_move_outcome g) EM then _ else w2).
  assert (stdin w3 = rest) as Ein3
      by (unfold w3; destruct (States_eqb _ EM); reflexivity).
  assert (draws w3 = (draws w + (if States_eqb (Game.last_move_outcome g) EM
                                 then 1 else 0))%nat) as Edr3.
  { unfold w3. destruct (States_eqb _ EM); cbn [draws w2]; rewrite Edr; lia. }
  clearbody w3.
  assert (pc = 0 \/ pc = 1 \/ pc = 2) as Epc by lia.
  assert (c = 0 \/ c = 1 \/ c = 2) as Ecc by lia.
  assert (accepted_count (stdin w) = accepted_count rest + 1) as Ecount
      by (rewrite <- Ein, E; now apply accepted_count_first).
  destruct Epc as [-> | [-> | ->]], Ecc as [-> | [-> | ->]];
    cbn [moves_dict outcomes_dict str_dict_getitem Z.eqb Pos.eqb lift and_then
         decide_round_result what_beats_what_dict dict_getitem bind];
    match goal with
    | |- context [update_probabilities ?p ?r ?l ?m] =>
        destruct (update_probabilities_ok p r l m ltac:(lia) Hs)
          as (s & tm' & -> & Hne & Hs' & Hre);
        cbn [lift and_then];
        eexists; eexists; exists r; (split; [reflexivity|]);
        cbn [Game.round_counter Game.score Game.last_move_outcome Game.tm
             stdin draws print];
        rewrite ?Ein3; repeat split; auto; try apply Hs'; lia
    end.
Qed.

(** The loop, with fuel for the rounds that are left. *)
Lemma rounds_spec (randint : nat -> Z) (fuel : nat) :
  (forall k, 0 <= randint k <= 2) ->
  forall (g : Game.state) (w : world),
  shape (Game.tm g) ->
  0 <= Game.round_counter g <= 30 -> -10 <= Game.score g <= 10 ->
  30 - Game.round_counter g <= Z.of_nat fuel ->
  (rounds fuel randint g w = EOFError /\
   accepted_count (stdin w) < 30 - Game.round_counter g) \/
  exists g' w' calls,
    rounds fuel randint g w = Done (g', w') /\
    continues g' = false /\
    Game.round_counter g <= Game.round_counter g' <= 30 /\
    -10 <= Game.score g' <= 10 /\
    Z.abs (Game.score g' - Game.score g)
    <= Game.round_counter g' - Game.round_counter g /\
    shape (Game.tm g') /\
    chained (Game.last_move_outcome g) calls (Game.last_move_outcome g') /\
    run calls (Game.tm g) = Ok (Game.tm g') /\
    Z.of_nat (length calls) = Game.round_counter g' - Game.round_counter g /\
    draws w' = (draws w +
                (if States_eqb (Game.last_move_outcome g) EM &&
                    (Game.round_counter g <? Game.round_counter g')%Z
                 then 1 else 0))%nat /\
    accepted_count (stdin w) =
    accepted_count (stdin w') + (Game.round_counter g' - Game.round_counter g).
Proof.
  intros Hrand. induction fuel as [|fuel IH]; intros g w Hs Hrc Hsc Hfuel;
    cbn [rounds]; destruct (continues g) eqn:C.
  - unfold continues in C. apply andb_true_iff in C. destruct C as [C _].
    apply Z.ltb_lt in C. lia.
  - right. exists g, w, []. cbn [chained run length].
    rewrite Z.ltb_irrefl, andb_false_r, !Z.sub_diag. cbn [Z.abs Z.of_nat].
    repeat split; auto; try apply Hs; lia.
  - unfold continues in C. apply andb_true_iff in C. destruct C as [C1 C2].
    apply andb_true_iff in C2. destruct C2 as [C2 C3].
    apply Z.ltb_lt in C1, C2, C3.
    destruct (play_round_spec randint g w Hrand Hs)
      as [[-> Hnone]|(g1 & w1 & r & -> & Hrc1 & Hsc1 & Hr & Hl1 & Hs1 & Hre & Hd1 & Ha1)].
    { left. split; [reflexivity|lia]. }
    cbn [and_then].
    destruct (IH g1 w1 Hs1 ltac:(lia) ltac:(lia) ltac:(lia))
      as [[-> Hlow]|(g' & w' & calls & -> & C' & Hrc' & Hsc' & Habs & Hs' & Hch &
                     Hrun & Hlen & Hd' & Ha')].
    { left. split; [reflexivity|lia]. }
    right. exists g', w', ((Game.last_move_outcome g, Game.last_move_outcome g1) :: calls).
    split; [reflexivity|]. split; [exact C'|]. split; [lia|]. split; [exact Hsc'|].
    split; [lia|]. split; [exact Hs'|].
    split; [cbn [chained]; auto|].
    split; [cbn [run]; rewrite Hre; exact Hrun|].
    split; [cbn [length]; lia|].
    split; [|lia].
    rewrite Hd', Hd1, (States_eqb_EM _ Hl1). cbn [andb].
    destruct (Z.ltb_spec (Game.round_counter g) (Game.round_counter g')); [|lia].
    rewrite andb_true_r. lia.
  - right. exists g, w, []. cbn [chained run length].
    rewrite Z.ltb_irrefl, andb_false_r, !Z.sub_diag. cbn [Z.abs Z.of_nat].
    repeat split; auto; try apply Hs; lia.
Qed.

(** [game_handler], read off [rounds_spec]. *)
Lemma game_handler_spec (randint : nat -> Z) (tm : matrix) (w : world) :
  (forall k, 0 <= randint k <= 2) -> shape tm ->
  (game_handler randint tm w = EOFError /\ accepted_count (stdin w) < 30) \/
  exists g w' calls,
    game_handler randint tm w = Done (g, w') /\
    continues g = false /\
    0 <= Game.round_counter g <= 30 /\
    Z.abs (Game.score g) <= Game.round_counter g /\
    -10 <= Game.score g <= 10 /\
    shape (Game.tm g) /\
    chained EM calls (Game.last_move_outcome g) /\
    run calls tm = Ok (Game.tm g) /\
    Z.of_nat (length calls) = Game.round_counter g /\
    draws w' = (draws w + (if (0 <? Game.round_counter g)%Z then 1 else 0))%nat /\
    accepted_count (stdin w) = accepted_count (stdin w') + Game.round_counter g.
Proof.
  intros Hrand Hs. unfold game_handler.
  set (g0 := {| Game.last_move_outcome := EM |}).
  destruct (rounds_spec randint 30 Hrand g0 w Hs ltac:(cbn; lia) ltac:(cbn; lia)
              ltac:(cbn; lia))
    as [[-> Hlow]|(g & w' & calls & -> & C & Hrc & Hsc & Habs & Hs' & Hch & Hrun &
                   Hlen & Hd & Ha)].
  - left. split; [reflexivity|]. cbn in Hlow. lia.
  - right. cbn [and_then]. eexists. eexists. exists calls.
    split; [reflexivity|]. cbn [Game.round_counter Game.score Game.tm
                                 Game.last_move_outcome g0] in *.
    rewrite !Z.sub_0_r in *. cbn [stdin draws print].
    repeat split; auto; try lia; apply Hs'.
Qed.

(** A chain of at least one call ends in a concrete state. *)
Lemma chained_concrete (calls : list (States * States)) :
  forall s s', chained s calls s' -> calls <> [] -> s' <> EM.
Proof.
  induction calls as [|[p o] calls IH]; intros s s' H Hne; [now destruct Hne|].
  cbn [chained] in H. destruct H as (_ & Ho & H).
  destruct calls as [|call calls]; [cbn in H; now subst|].
  apply (IH o s' H). discriminate.
Qed.

End Terminal.

(** ** States and errors *)

(** X1. [States(v)] and [.value] are inverse to each other: the member of
    value [v] is returned for [v] from -1 to 8, a [ValueError] is raised for
    every other [v], and [States(s.value)] is [s]. *)
Theorem States_value_round_trip (v : Z) (s : States) :
  States_of_value (value s) = Ok s /\
  (States_of_value v = Ok s <-> value s = v) /\
  (States_of_value v = Raise ValueError <-> v < -1 \/ 8 < v) /\
  (forall e, States_of_value v = Raise e -> e = ValueError).
Proof.
  split; [apply Frame.States_of_value_value|]. split; [|split].
  - split; [apply Frame.States_of_value_inv|].
    intros <-. apply Frame.States_of_value_value.
  - split; [|apply Frame.States_of_value_outside].
    intros H. destruct (Z_le_gt_dec (-1) v); [|lia].
    destruct (Z_le_gt_dec v 8); [|lia].
    destruct (Frame.States_of_value_range v ltac:(lia)) as (t & E & _).
    rewrite E in H. discriminate H.
  - intros e H. unfold States_of_value in H.
    destruct (find _ all_States); [discriminate|]. now injection H as <-.
Qed.

(** X2. The state of a round encodes the move and the result without loss:
    on moves of [{0, 1, 2}] and results of [{1, -1, 0}] two rounds with the
    same state have the same move and the same result, the move is the value
    of the state modulo 3, and every state but [EM] is the state of a round. *)
Theorem current_state_of_bijective (m r m' r' : Z) (s : States) :
  0 <= m <= 2 -> 0 <= m' <= 2 -> -1 <= r <= 1 -> -1 <= r' <= 1 ->
  (exists t, current_state_of m r = Ok t /\ t <> EM /\
             value t mod 3 = m /\
             value t / 3 = (if r =? 1 then 0 else if r =? -1 then 1 else 2)) /\
  (current_state_of m r = current_state_of m' r' -> m = m' /\ r = r') /\
  (s <> EM ->
   current_state_of (value s mod 3)
     (if value s / 3 =? 0 then 1 else if value s / 3 =? 1 then -1 else 0) = Ok s).
Proof.
  intros Hm Hm' Hr Hr'.
  assert (m = 0 \/ m = 1 \/ m = 2) as Em by lia.
  assert (m' = 0 \/ m' = 1 \/ m' = 2) as Em' by lia.
  assert (r = -1 \/ r = 0 \/ r = 1) as Er by lia.
  assert (r' = -1 \/ r' = 0 \/ r' = 1) as Er' by lia.
  split; [|split].
  - destruct Em as [-> | [-> | ->]], Er as [-> | [-> | ->]];
      eexists; (split; [reflexivity|]); (split; [discriminate|]); split; reflexivity.
  - destruct Em as [-> | [-> | ->]], Er as [-> | [-> | ->]],
             Em' as [-> | [-> | ->]], Er' as [-> | [-> | ->]];
      vm_compute; intros H; try discriminate H; split; reflexivity.
  - destruct s; intros H; try reflexivity. contradiction.
Qed.

Lemma current_state_of_bijective_witness :
  (0 <= 2 <= 2 /\ 0 <= 2 <= 2 /\ -1 <= -1 <= 1 /\ -1 <= -1 <= 1) /\
  current_state_of 2 (-1) = Ok LS /\
  current_state_of (value LS mod 3)
    (if value LS / 3 =? 0 then 1 else if value LS / 3 =? 1 then -1 else 0) = Ok LS.
Proof.
  split; [lia|].
  destruct (current_state_of_bijective 2 (-1) 2 (-1) LS
              ltac:(lia) ltac:(lia) ltac:(lia) ltac:(lia)) as (_ & _ & H).
  split; [reflexivity|]. apply H. discriminate.
Defined.

(** X3. On a matrix of nine rows of nine cells [update_probabilities]
    raises exactly when the player's choice, shifted by 0 after a win, 3
    after a loss and 6 otherwise, is no value of [States], and what it
    raises is the [ValueError] of [States(...)]; for every other choice it
    returns the state of that value, which is [EM] for the value -1. *)
Theorem update_probabilities_value_error
    (player_choice round_result : Z) (last_move_outcome : States) (tm : matrix) :
  shape tm ->
  let v := player_choice + (if round_result =? 1 then 0
                            else if round_result =? -1 then 3 else 6) in
  (v < -1 \/ 8 < v ->
   update_probabilities player_choice round_result last_move_outcome tm
   = Raise ValueError) /\
  (-1 <= v <= 8 ->
   exists current_state tm',
     update_probabilities player_choice round_result last_move_outcome tm
     = Ok (current_state, tm') /\ value current_state = v /\ shape tm').
Proof.
  intros Hs v.
  assert (current_state_of player_choice round_result = States_of_value v) as E.
  { unfold current_state_of, v.
    destruct (round_result =? 1); [now rewrite Z.add_0_r|].
    destruct (round_result =? -1); reflexivity. }
  unfold update_probabilities. rewrite E. split.
  - intros H. rewrite (Frame.States_of_value_outside v H). reflexivity.
  - intros H. destruct (Frame.States_of_value_range v H) as (s & -> & Hv).
    cbn [bind].
    destruct (Frame.reinforce_shape tm last_move_outcome s Hs) as (tm' & E' & Hs').
    rewrite E'. cbn [bind]. exists s, tm'. auto.
Qed.

Lemma update_probabilities_value_error_witness :
  shape transition_matrix /\
  update_probabilities 3 0 EM transition_matrix = Raise ValueError /\
  exists tm',
    update_probabilities (-1) 1 EM transition_matrix = Ok (EM, tm').
Proof.
  pose proof (proj1 Updater.transition_matrix_ok) as Hs.
  split; [exact Hs|]. split.
  - apply (update_probabilities_value_error 3 0 EM transition_matrix Hs). cbn. lia.
  - destruct (update_probabilities_value_error (-1) 1 EM transition_matrix Hs)
      as [_ H].
    destruct (H ltac:(cbn; lia)) as (s & tm' & E & Hv & _).
    apply NpFacts.value_inj with (t := EM) in Hv. subst s. eauto.
Defined.

(** ** Tables and decision *)

(** X4. A choice that [States(...)] maps to [EM] (the value -1: a win
    with -1, a loss with -4, anything else with -7) is not refused: the state
    returned is [EM] and, the index -1 counting from the end of the row, the
    matrix is updated as if a tie with scissors had been observed. *)
Theorem update_probabilities_wraps_to_TS
    (player_choice round_result : Z) (last_move_outcome : States) (tm : matrix) :
  shape tm ->
  player_choice + (if round_result =? 1 then 0
                   else if round_result =? -1 then 3 else 6) = -1 ->
  exists tm',
    update_probabilities player_choice round_result last_move_outcome tm
    = Ok (EM, tm') /\
    reinforce tm last_move_outcome TS = Ok tm'.
Proof.
  intros Hs Hv.
  assert (current_state_of player_choice round_result = Ok EM) as E.
  { unfold current_state_of. revert Hv.
    destruct (round_result =? 1); [|destruct (round_result =? -1)];
      intros Hv; [replace player_choice with (-1) by lia
                 |replace (player_choice + 3) with (-1) by lia
                 |replace (player_choice + 6) with (-1) by lia]; reflexivity. }
  unfold update_probabilities. rewrite E. cbn [bind].
  assert (reinforce tm last_move_outcome EM = reinforce tm last_move_outcome TS) as ->.
  { unfold reinforce. destruct (States_eqb last_move_outcome EM); [reflexivity|].
    cbn [negb].
    destruct (Np.getitem tm (value last_move_outcome)) as [vector|e] eqn:Ev;
      [|reflexivity].
    cbn [bind]. destruct Hs as [_ Hrows].
    assert (length vector = 9%nat) as Hl.
    { rewrite Forall_forall in Hrows. apply Hrows.
      eapply NpFacts.getitem_In; eassumption. }
    assert (guard vector EM = guard vector TS) as ->
        by (unfold guard; now rewrite Frame.getitem_EM_TS).
    assert (bump vector EM = bump vector TS) as ->; [|reflexivity].
    unfold bump. rewrite Frame.getitem_EM_TS by (now rewrite length_map).
    destruct (Np.getitem _ (value TS)); [|reflexivity]. cbn [bind].
    unfold Np.setitem. rewrite length_map, Hl. reflexivity. }
  destruct (Frame.reinforce_shape tm last_move_outcome TS Hs) as (tm' & E' & _).
  rewrite E'. cbn [bind]. eauto.
Qed.

Lemma update_probabilities_wraps_to_TS_witness :
  (shape transition_matrix /\ -4 + (if -1 =? 1 then 0 else if -1 =? -1 then 3 else 6) = -1) /\
  exists tm',
    update_probabilities (-4) (-1) VR transition_matrix = Ok (EM, tm') /\
    cell tm' VR TS = Ok (0.11 - decrease_value + increase_value)%float.
Proof.
  pose proof (proj1 Updater.transition_matrix_ok) as Hs.
  split; [split; [exact Hs|reflexivity]|].
  destruct (update_probabilities_wraps_to_TS (-4) (-1) VR transition_matrix Hs eq_refl)
    as (tm' & E & Er).
  exists tm'. split; [exact E|].
  vm_compute in Er.
  apply (f_equal (fun r => match r with
                           | Ok m => cell m VR TS
                           | Raise e => Raise e
                           end)) in Er.
  rewrite <- Er. vm_compute. reflexivity.
Defined.

(** X5. [counter_plays] is the inverse of [what_beats_what_dict] on the
    three moves: the move it gives for [m] is the one the evaluator scores
    as a loss for a player who throws [m], and as a win the other way
    round; for any other key the lookup raises [KeyError]. *)
Theorem counter_plays_beats (m : Z) :
  (0 <= m <= 2 ->
   exists c,
     dict_getitem counter_plays m = Ok c /\ 0 <= c <= 2 /\ c <> m /\
     dict_getitem what_beats_what_dict c = Ok m /\
     decide_round_result m c = Ok (-1) /\
     decide_round_result c m = Ok 1) /\
  (~ 0 <= m <= 2 -> dict_getitem counter_plays m = Raise (KeyError m)).
Proof.
  split.
  - intros H. assert (m = 0 \/ m = 1 \/ m = 2) as [-> | [-> | ->]] by lia;
      eexists; (split; [reflexivity|]); repeat split; lia.
  - intros H. unfold counter_plays. cbn [dict_getitem].
    destruct (Z.eqb_spec m 2); [lia|]. destruct (Z.eqb_spec m 1); [lia|].
    destruct (Z.eqb_spec m 0); [lia|]. reflexivity.
Qed.

(** X6. On a matrix of nine rows of nine cells [computer_move] raises
    nothing: for [EM] it returns what [random.randint] drew, for every
    other state a move of [{0, 1, 2}], whatever the cells hold (NaN and
    infinities included). *)
Theorem computer_move_in_range (randint : Z) (tm : matrix) (s : States) :
  shape tm ->
  exists c,
    computer_move randint tm s = Ok c /\
    (s = EM -> c = randint) /\
    (s <> EM -> 0 <= c <= 2).
Proof.
  intros Hs.
  destruct (Frame.computer_move_range randint tm s Hs) as (c & E & H1 & H2).
  exists c. split; [exact E|]. split; assumption.
Qed.

Lemma computer_move_in_range_witness :
  shape transition_matrix /\
  exists c, computer_move 7 transition_matrix LS = Ok c /\ 0 <= c <= 2.
Proof.
  pose proof (proj1 Updater.transition_matrix_ok) as Hs.
  split; [exact Hs|].
  destruct (computer_move_in_range 7 transition_matrix LS Hs) as (c & E & _ & H).
  exists c. split; [exact E|]. apply H. discriminate.
Defined.

(** X7. A run leaves the row of a state as it was when no call of the run
    has that state as its previous state. *)
Theorem run_untouched_rows
    (calls : list (States * States)) (tm tm' : matrix) (q : States) :
  q <> EM -> Forall (fun call => fst call <> q) calls ->
  run calls tm = Ok tm' ->
  Np.getitem tm' (value q) = Np.getitem tm (value q).
Proof.
  intros Hq Hcalls. revert tm.
  induction Hcalls as [|[p o] calls Hp Hcalls IH]; intros tm H; cbn [run] in H.
  - now injection H as <-.
  - destruct (reinforce tm p o) as [tm1|e] eqn:E; cbn [bind] in H; [|discriminate].
    rewrite (IH tm1 H).
    apply (Frame.reinforce_other_rows _ _ _ _ _ E Hq).
    intros ->. apply Hp. reflexivity.
Qed.

Lemma run_untouched_rows_witness :
  (LP <> EM /\ Forall (fun call => fst call <> LP) eleven_rounds) /\
  exists tm',
    run eleven_rounds transition_matrix = Ok tm' /\
    Np.getitem tm' (value LP) = Np.getitem transition_matrix (value LP).
Proof.
  assert (LP <> EM) as H1 by discriminate.
  assert (Forall (fun call => fst call <> LP) eleven_rounds) as H2
      by (repeat constructor; discriminate).
  split; [auto|].
  destruct (run eleven_rounds transition_matrix) as [tm'|e] eqn:E;
    [|vm_compute in E; discriminate E].
  exists tm'. split; [reflexivity|].
  exact (run_untouched_rows eleven_rounds transition_matrix tm' LP H1 H2 E).
Defined.

(** X8. A row that holds an entry which is not at least [bottom_limit]
    is never written again: after any run it is the row it was. *)
Theorem low_row_is_frozen
    (calls : list (States * States)) (tm tm' : matrix) (q : States)
    (vector : list float) (x : float) :
  q <> EM ->
  Np.getitem tm (value q) = Ok vector ->
  In x vector -> (bottom_limit <=? x)%float = false ->
  run calls tm = Ok tm' ->
  Np.getitem tm' (value q) = Ok vector.
Proof.
  intros Hq Ev Hx Hlow. revert tm Ev.
  induction calls as [|[p o] calls IH]; intros tm Ev H; cbn [run] in H.
  - now injection H as <-.
  - destruct (reinforce tm p o) as [tm1|e] eqn:E; cbn [bind] in H; [|discriminate].
    apply (IH tm1); [|exact H].
    exact (Frame.reinforce_low_row _ _ _ _ _ _ _ E Hq Ev Hx Hlow).
Qed.

Lemma low_row_is_frozen_witness :
  exists tm tm' vector x,
    run eleven_rounds transition_matrix = Ok tm /\
    (VR <> EM /\ Np.getitem tm (value VR) = Ok vector /\
     In x vector /\ (bottom_limit <=? x)%float = false /\
     run [(VR, TS); (VP, VR); (VR, VR)] tm = Ok tm') /\
    Np.getitem tm' (value VR) = Ok vector.
Proof.
  eexists. eexists. eexists. eexists.
  split; [vm_compute; reflexivity|].
  match goal with
  | |- ?P /\ _ => assert P as H
  end.
  { split; [discriminate|]. split; [reflexivity|].
    split; [simpl; do 8 right; left; reflexivity|].
    split; vm_compute; reflexivity. }
  split; [exact H|].
  destruct H as (H1 & H2 & H3 & H4 & H5).
  exact (low_row_is_frozen _ _ _ VR _ _ H1 H2 H3 H4 H5).
Defined.

(** ** Drift of the cells *)

(** X9. In a call on a matrix the program can hold, only the cell of the
    observed state in the row of the previous state can grow: every other
    cell of the matrix is afterwards at most what it was. *)
Theorem reinforce_only_observed_grows
    (tm tm' : matrix) (p o q c : States) (x x' : float) :
  reachable tm -> o <> EM -> q <> EM -> c <> EM ->
  q <> p \/ c <> o ->
  reinforce tm p o = Ok tm' ->
  cell tm q c = Ok x -> cell tm' q c = Ok x' ->
  (x' <=? x)%float = true.
Proof.
  intros Hr Ho Hq Hc Hne E Hx Hx'.
  destruct (Updater.reachable_ok tm Hr) as [Hs Hu].
  unfold cell in Hx, Hx'.
  destruct (Np.getitem tm (value q)) as [row|e] eqn:Erow; cbn [bind] in Hx;
    [|discriminate].
  assert (in_unit x) as Hin.
  { rewrite Forall_forall in Hu.
    pose proof (Hu row (NpFacts.getitem_In _ _ _ Erow)) as Hrow.
    rewrite Forall_forall in Hrow. apply Hrow.
    eapply NpFacts.getitem_In; eassumption. }
  assert (Np.getitem tm' (value q) = Ok row -> (x' <=? x)%float = true) as Hsame.
  { intros E'. rewrite E' in Hx'. cbn [bind] in Hx'. rewrite Hx in Hx'.
    injection Hx' as <-. now apply Drain.leb_refl_in_unit. }
  destruct (States_eqb q p) eqn:Eqp.
  2: { apply Hsame. rewrite <- Erow.
       apply (Frame.reinforce_other_rows _ _ _ _ _ E Hq).
       intros ->. unfold States_eqb in Eqp. rewrite Z.eqb_refl in Eqp.
       discriminate Eqp. }
  apply NpFacts.States_eqb_eq in Eqp. subst q.
  destruct Hne as [Hne|Hne]; [contradiction|].
  unfold reinforce in E. rewrite (NpFacts.States_eqb_EM p Hq) in E.
  cbn [negb] in E. rewrite Erow in E. cbn [bind] in E.
  destruct (guard row o) as [[|]|e] eqn:Eg; cbn [bind] in E; try discriminate.
  2: { injection E as <-. apply Hsame. exact Erow. }
  destruct (Updater.guard_true _ _ Eg) as (co & Eco & _ & Hb).
  destruct (Updater.bump_spec _ _ _ Eco) as (k & Ek & _ & Eb).
  rewrite Eb in E. cbn [bind] in E.
  pose proof (NpFacts.value_concrete p Hq) as Hvp.
  pose proof (NpFacts.value_concrete o Ho) as Hvo.
  pose proof (NpFacts.value_concrete c Hc) as Hvc.
  destruct (Updater.concrete_lt_length _ _ _ Hq Erow) as [_ Hlp].
  destruct (Updater.concrete_lt_length _ _ _ Hc Hx) as [Hnc Hlc].
  destruct (Updater.concrete_lt_length _ _ _ Ho Eco) as [_ Hlo].
  rewrite NpFacts.index_nonneg in Ek by lia.
  destruct (Z.ltb_spec (value o) (Z.of_nat (length row))); [|lia].
  injection Ek as <-.
  rewrite NpFacts.setitem_nonneg in E by lia.
  destruct (Z.ltb_spec (value p) (Z.of_nat (length tm))); [|lia].
  injection E as <-.
  rewrite NpFacts.getitem_nonneg in Hx' by lia.
  rewrite NpFacts.nth_error_set_nth_eq in Hx' by lia. cbn [bind] in Hx'.
  rewrite NpFacts.getitem_nonneg in Hx' by lia.
  rewrite NpFacts.nth_error_set_nth_ne in Hx'.
  2: { intros E. apply Z2Nat.inj in E; try lia.
       symmetry in E. apply NpFacts.value_inj in E. contradiction. }
  rewrite nth_error_map, Hnc in Hx'. cbn in Hx'. injection Hx' as <-.
  apply Drain.sub_le_self; [|exact (proj2 Hin)].
  rewrite Forall_forall in Hb. apply Hb. eapply nth_error_In; eassumption.
Qed.

Lemma reinforce_only_observed_grows_witness :
  exists tm',
    (reachable transition_matrix /\ VP <> EM /\ VR <> EM /\ TS <> EM /\
     (VR <> VR \/ TS <> VP) /\
     reinforce transition_matrix VR VP = Ok tm' /\
     cell transition_matrix VR TS = Ok 0.11%float /\
     cell tm' VR TS = Ok (0.11 - decrease_value)%float) /\
    (0.11 - decrease_value <=? 0.11)%float = true.
Proof.
  eexists.
  match goal with
  | |- ?P /\ _ => assert P as H
  end.
  { split; [exists []; reflexivity|]. split; [discriminate|].
    split; [discriminate|]. split; [discriminate|].
    split; [right; discriminate|].
    split; [vm_compute; reflexivity|]. split; vm_compute; reflexivity. }
  split; [exact H|].
  destruct H as (H1 & H2 & H3 & H4 & H5 & H6 & H7 & H8).
  exact (reinforce_only_observed_grows _ _ VR VP VR TS _ _ H1 H2 H3 H4 H5 H6 H7 H8).
Defined.

(** ** The game *)

(** X10. [player_move] skips the lines it does not accept and returns on the
    first line that is ["1"], ["2"] or ["3"], with the move 0, 1 or 2 of
    that line: the lines after it are left on standard input, and what was
    written is one prompt for each line read and one ["Wrong choice!"] for
    each line skipped. *)
Theorem player_move_first_accepted
    (w : world) (skipped : list String.string) (line : String.string)
    (rest : list String.string) :
  stdin w = skipped ++ line :: rest ->
  forallb (fun l => negb (accepted l)) skipped = true ->
  accepted line = true ->
  player_move w =
  Done (move_of_line line,
        {| stdin := rest;
           stdout := stdout w ++ flat_map (fun _ => [prompt; wrong]) skipped ++ [prompt];
           draws := draws w |}) /\
  0 <= move_of_line line <= 2.
Proof.
  intros E Hs Hl. unfold player_move. rewrite E. split.
  - now apply Terminal.player_move_lines_accepts.
  - apply Terminal.move_of_line_range.
Qed.

Lemma player_move_first_accepted_witness :
  (["x"; ""; "3"; "1"]%string = ["x"; ""]%string ++ "3"%string :: ["1"%string] /\
   forallb (fun l => negb (accepted l)) ["x"; ""]%string = true /\
   accepted "3"%string = true) /\
  player_move {| stdin := ["x"; ""; "3"; "1"]%string; stdout := []; draws := 0 |} =
  Done (2, {| stdin := ["1"%string];
              stdout := [prompt; wrong; prompt; wrong; prompt];
              draws := 0 |}).
Proof.
  assert (["x"; ""; "3"; "1"]%string = ["x"; ""]%string ++ "3"%string :: ["1"%string])
    as H1 by reflexivity.
  assert (forallb (fun l => negb (accepted l)) ["x"; ""]%string = true) as H2
      by reflexivity.
  assert (accepted "3"%string = true) as H3 by reflexivity.
  split; [auto|].
  exact (proj1 (player_move_first_accepted
                  {| stdin := ["x"; ""; "3"; "1"]%string; stdout := []; draws := 0 |}
                  _ _ _ H1 H2 H3)).
Defined.

(** X11. [player_move] ends in the [EOFError] of [input] exactly when no
    line left on standard input is accepted; it ends in no other exception
    and always ends. *)
Theorem player_move_eof (w : world) :
  (player_move w = EOFError <->
   forallb (fun l => negb (accepted l)) (stdin w) = true) /\
  (forall e, player_move w <> Fault e) /\ player_move w <> OutOfFuel.
Proof.
  unfold player_move.
  destruct (Terminal.first_accepted (stdin w))
    as [Hnone|(skipped & line & rest & E & Hs & Hl)].
  - rewrite (Terminal.player_move_lines_eof _ _ _ Hnone).
    repeat split; auto; discriminate.
  - rewrite E, (Terminal.player_move_lines_accepts _ _ _ _ _ Hs Hl).
    repeat split; try discriminate.
    intros H. exfalso. rewrite forallb_app in H. apply andb_true_iff in H.
    destruct H as [_ H]. cbn [forallb] in H. rewrite Hl in H. discriminate H.
Qed.

(** X12. With draws of [random.randint(0, 2)] in range and a matrix of nine
    rows of nine cells, [game_handler] either runs out of input
    ([EOFError]) or returns: no other exception is raised and thirty
    iterations are enough. When it returns, between 10 and 30 rounds were
    played, the score is between -10 and 10 and at most the number of
    rounds in absolute value, the game stopped because 30 rounds were played
    or the score reached 10 or -10, the last state is not [EM], and
    [random.randint] was called exactly once. *)
Theorem game_handler_ends (randint : nat -> Z) (tm : matrix) (w : world) :
  (forall k, 0 <= randint k <= 2) -> shape tm ->
  game_handler randint tm w = EOFError \/
  exists g w',
    game_handler randint tm w = Done (g, w') /\
    10 <= Game.round_counter g <= 30 /\
    Z.abs (Game.score g) <= 10 /\
    Z.abs (Game.score g) <= Game.round_counter g /\
    (Game.round_counter g = 30 \/ Z.abs (Game.score g) = 10) /\
    Game.last_move_outcome g <> EM /\
    shape (Game.tm g) /\
    draws w' = S (draws w).
Proof.
  intros Hrand Hs.
  destruct (Terminal.game_handler_spec randint tm w Hrand Hs)
    as [[E _]|(g & w' & calls & E & C & Hrc & Habs & Hsc & Hs' & Hch & _ & Hlen &
               Hd & _)]; [now left|].
  right. exists g, w'. split; [exact E|].
  unfold continues in C.
  assert (Game.round_counter g = 30 \/ Z.abs (Game.score g) = 10) as Hstop.
  { destruct (Z.ltb_spec (Game.round_counter g) 30); [|lia].
    destruct (Z.ltb_spec (Game.score g) 10); [|lia].
    destruct (Z.ltb_spec (-10) (Game.score g)); [discriminate C|lia]. }
  assert (10 <= Game.round_counter g) as H10 by lia.
  split; [lia|]. split; [lia|]. split; [exact Habs|]. split; [exact Hstop|].
  split; [|split; [exact Hs'|]].
  - apply (Terminal.chained_concrete calls EM _ Hch).
    intros ->. cbn in Hlen. lia.
  - rewrite Hd. destruct (Z.ltb_spec 0 (Game.round_counter g)); lia.
Qed.

Lemma game_handler_ends_witness :
  ((forall k : nat, 0 <= (fun _ : nat => 1) k <= 2) /\ shape transition_matrix) /\
  (game_handler (fun _ => 1) transition_matrix
     {| stdin := repeat "1"%string 30; stdout := []; draws := 0 |} = EOFError \/
   exists g w',
     game_handler (fun _ => 1) transition_matrix
       {| stdin := repeat "1"%string 30; stdout := []; draws := 0 |} = Done (g, w') /\
     10 <= Game.round_counter g <= 30 /\
     Z.abs (Game.score g) <= 10 /\
     Z.abs (Game.score g) <= Game.round_counter g /\
     (Game.round_counter g = 30 \/ Z.abs (Game.score g) = 10) /\
     Game.last_move_outcome g <> EM /\
     shape (Game.tm g) /\
     draws w' = 1%nat).
Proof.
  assert (forall k : nat, 0 <= (fun _ : nat => 1) k <= 2) as H1 by (intros; lia).
  pose proof (proj1 Updater.transition_matrix_ok) as H2.
  split; [auto|].
  exact (game_handler_ends (fun _ => 1) transition_matrix
           {| stdin := repeat "1"%string 30; stdout := []; draws := 0 |} H1 H2).
Defined.

(** X13. Each round reads exactly one accepted line (and every line before
    it): thirty accepted lines on standard input are always enough for
    [game_handler] to return, fewer than ten never are, and on return the
    accepted lines read are as many as the rounds played. *)
Theorem game_handler_input (randint : nat -> Z) (tm : matrix) (w : world) :
  (forall k, 0 <= randint k <= 2) -> shape tm ->
  (30 <= accepted_count (stdin w) ->
   exists g w', game_handler randint tm w = Done (g, w')) /\
  (accepted_count (stdin w) < 10 -> game_handler randint tm w = EOFError) /\
  (forall g w', game_handler randint tm w = Done (g, w') ->
     accepted_count (stdin w) = accepted_count (stdin w') + Game.round_counter g).
Proof.
  intros Hrand Hs.
  destruct (Terminal.game_handler_spec randint tm w Hrand Hs)
    as [[E Hlow]|(g & w' & calls & E & C & Hrc & Habs & Hsc & _ & _ & _ & _ & _ & Ha)].
  - split; [lia|]. split; [auto|]. intros g w' E'. rewrite E in E'. discriminate E'.
  - split; [eauto|]. split.
    + intros Hlow. exfalso.
      pose proof (Terminal.accepted_count_nonneg (stdin w')) as Hnn.
      unfold continues in C.
      destruct (Z.ltb_spec (Game.round_counter g) 30); [|lia].
      destruct (Z.ltb_spec (Game.score g) 10); [|lia].
      destruct (Z.ltb_spec (-10) (Game.score g)); [discriminate C|lia].
    + intros g1 w1 E1. rewrite E in E1. injection E1 as <- <-. exact Ha.
Qed.

Lemma game_handler_input_witness :
  ((forall k : nat, 0 <= (fun _ : nat => 0) k <= 2) /\ shape transition_matrix) /\
  game_handler (fun _ => 0) transition_matrix
    {| stdin := ["1"; "2"; "3"; "four"; "1"; "2"; "3"; "1"; "2"]%string;
       stdout := []; draws := 0 |} = EOFError.
Proof.
  assert (forall k : nat, 0 <= (fun _ : nat => 0) k <= 2) as H1 by (intros; lia).
  pose proof (proj1 Updater.transition_matrix_ok) as H2.
  split; [auto|].
  apply (game_handler_input (fun _ => 0) transition_matrix _ H1 H2).
  vm_compute. reflexivity.
Defined.

(** X14. The matrix a game returns is the result of one call of
    [reinforce] per round, chained through the states of the rounds: the
    first call has the previous state [EM] (and changes nothing), each
    later call has the observed state of the call before as its previous
    state, and the last observed state is the state the game ends in.
    Started on a matrix with every cell in [0, 1], the game ends on one. *)
Theorem game_handler_chain
    (randint : nat -> Z) (tm : matrix) (w w' : world) (g : Game.state) :
  (forall k, 0 <= randint k <= 2) -> shape tm ->
  game_handler randint tm w = Done (g, w') ->
  exists calls,
    chained EM calls (Game.last_move_outcome g) /\
    Z.of_nat (length calls) = Game.round_counter g /\
    run calls tm = Ok (Game.tm g) /\
    (Forall (Forall in_unit) tm -> Forall (Forall in_unit) (Game.tm g)).
Proof.
  intros Hrand Hs E.
  destruct (Terminal.game_handler_spec randint tm w Hrand Hs)
    as [[E' _]|(g1 & w1 & calls & E' & _ & _ & _ & _ & _ & Hch & Hrun & Hlen & _)].
  - rewrite E in E'. discriminate E'.
  - rewrite E in E'. injection E' as <- <-. exists calls.
    split; [exact Hch|]. split; [exact Hlen|]. split; [exact Hrun|].
    intros Hu. destruct (Updater.run_keeps calls tm Hs Hu) as (tm1 & E1 & _ & Hu1).
    rewrite Hrun in E1. injection E1 as <-. exact Hu1.
Qed.

Lemma game_handler_chain_witness :
  exists g w',
    ((forall k : nat, 0 <= (fun _ : nat => 2) k <= 2) /\ shape transition_matrix /\
     game_handler (fun _ => 2) transition_matrix
       {| stdin := repeat "2"%string 30; stdout := []; draws := 0 |} = Done (g, w')) /\
    exists calls,
      chained EM calls (Game.last_move_outcome g) /\
      Z.of_nat (length calls) = Game.round_counter g /\
      run calls transition_matrix = Ok (Game.tm g).
Proof.
  eexists. eexists.
  match goal with
  | |- ?P /\ _ => assert P as H
  end.
  { split; [intros; lia|]. split; [exact (proj1 Updater.transition_matrix_ok)|].
    vm_compute. reflexivity. }
  split; [exact H|]. destruct H as (H1 & H2 & H3).
  destruct (game_handler_chain _ _ _ _ _ H1 H2 H3) as (calls & Hc & Hl & Hr & _).
  exists calls. auto.
Defined.
